(** * encontrar_dispositivo.py: a shallow embedding

    The program walks a switched network hop by hop to find the access port
    that serves an IP address.  This file embeds its text parsers, its
    credential negotiation and its topology walk, and states the properties
    of the specification against them.

    Text.  Python strings are modelled as lists of 8-bit characters, that is
    the code points below 256 (device output is ASCII).  The string methods
    used by the program ([strip], [lower], [split], [splitlines], [in],
    [startswith], [replace]) are modelled on that range as CPython defines
    them. *)

From Stdlib Require Import Ascii String List Bool Arith Lia.
Import ListNotations.

(** ** Python strings *)

Module PyStr.

Definition str := list ascii.

Definition lit (s : string) : str := list_ascii_of_string s.
Arguments lit : simpl never.

Definition code (c : ascii) : nat := nat_of_ascii c.

Definition between (lo hi : nat) (c : ascii) : bool :=
  (lo <=? code c) && (code c <=? hi).

(** [str.isspace] on one character: TAB..CR, FS..US, space, NEL, NBSP. *)
Definition isspace (c : ascii) : bool :=
  between 9 13 c || between 28 32 c || (code c =? 133) || (code c =? 160).

(** The line boundaries of [str.splitlines]: LF, VT, FF, CR, FS, GS, RS, NEL. *)
Definition is_linebreak (c : ascii) : bool :=
  between 10 13 c || between 28 30 c || (code c =? 133).

(** [str.lower] on one character: A-Z and the Latin-1 capitals. *)
Definition lower_char (c : ascii) : ascii :=
  if between 65 90 c || (between 192 222 c && negb (code c =? 215))
  then ascii_of_nat (code c + 32) else c.

Definition lower (s : str) : str := map lower_char s.

Fixpoint str_eqb (a b : str) : bool :=
  match a, b with
  | [], [] => true
  | x :: a', y :: b' => Ascii.eqb x y && str_eqb a' b'
  | _, _ => false
  end.

(** [s.startswith(p)] *)
Fixpoint startswith (s p : str) : bool :=
  match p, s with
  | [], _ => true
  | x :: p', y :: s' => Ascii.eqb x y && startswith s' p'
  | _ :: _, [] => false
  end.

(** [sub in s] *)
Fixpoint contains (s sub : str) : bool :=
  startswith s sub ||
  match s with
  | [] => false
  | _ :: s' => contains s' sub
  end.

Fixpoint lstrip (s : str) : str :=
  match s with
  | c :: s' => if isspace c then lstrip s' else s
  | [] => []
  end.

Definition rstrip (s : str) : str := rev (lstrip (rev s)).

(** [s.strip()] *)
Definition strip (s : str) : str := rstrip (lstrip s).

(** [s.replace(c, "")] for a one-character [c] *)
Definition remove_char (c : ascii) (s : str) : str :=
  filter (fun x => negb (Ascii.eqb x c)) s.

Definition flush (cur : str) (rest : list str) : list str :=
  match cur with
  | [] => rest
  | _ :: _ => rev cur :: rest
  end.

(** [s.split()]: the maximal runs of non-whitespace characters.  [cur] is
    the current run, reversed. *)
Fixpoint split_from (cur : str) (s : str) : list str :=
  match s with
  | [] => flush cur []
  | c :: s' =>
      if isspace c then flush cur (split_from [] s')
      else split_from (c :: cur) s'
  end.

Definition split (s : str) : list str := split_from [] s.

(** [s.splitlines()]: CR LF counts as one boundary and no empty line is
    reported after a final boundary. *)
Fixpoint splitlines_from (cur : str) (s : str) : list str :=
  match s with
  | [] => flush cur []
  | c :: s' =>
      if Ascii.eqb c "013" then
        match s' with
        | d :: s'' =>
            if Ascii.eqb d "010" then rev cur :: splitlines_from [] s''
            else rev cur :: splitlines_from [] s'
        | [] => rev cur :: splitlines_from [] s'
        end
      else if is_linebreak c then rev cur :: splitlines_from [] s'
      else splitlines_from (c :: cur) s'
  end.

Definition splitlines (s : str) : list str := splitlines_from [] s.

(** [s.split(sep, 1)]: [None] when [sep] does not occur (the result then
    has one element), else the text before and after its first occurrence. *)
Fixpoint split_once (sep : ascii) (s : str) : option (str * str) :=
  match s with
  | [] => None
  | c :: s' =>
      if Ascii.eqb c sep then Some ([], s')
      else match split_once sep s' with
           | Some (a, b) => Some (c :: a, b)
           | None => None
           end
  end.

(** [s[i:j]] for [0 <= i <= j] *)
Definition slice (i j : nat) (s : str) : str := firstn (j - i) (skipn i s).

(** Truth value of an optional string: [None] and [""] are false. *)
Definition truthy (o : option str) : bool :=
  match o with
  | Some (_ :: _) => true
  | _ => false
  end.

End PyStr.

Import PyStr.

(** ** Python regular expressions

    The patterns of the program are written as syntax trees and run by a
    backtracking matcher with the priorities of Python's [re]: alternatives
    left to right, greedy repetition, leftmost match for [re.search]. *)

Module PyRe.

Inductive regex : Type :=
| Eps
| Chr (p : ascii -> bool)       (* one character of a class or a literal *)
| Seq (r1 r2 : regex)
| Alt (r1 r2 : regex)
| Star (r : regex)              (* greedy [r*] *)
| Group (n : nat) (r : regex).  (* capturing group number [n] *)

(** [r{n}] *)
Fixpoint Rep (n : nat) (r : regex) : regex :=
  match n with
  | 0 => Eps
  | 1 => r
  | S n' => Seq r (Rep n' r)
  end.

(** [r+] *)
Definition Plus (r : regex) : regex := Seq r (Star r).

(** A literal string *)
Fixpoint Lit (s : str) : regex :=
  match s with
  | [] => Eps
  | [c] => Chr (Ascii.eqb c)
  | c :: s' => Seq (Chr (Ascii.eqb c)) (Lit s')
  end.

(** Captured groups, most recent first. *)
Definition caps := list (nat * str).

Fixpoint group (m : caps) (n : nat) : option str :=
  match m with
  | [] => None
  | (i, w) :: m' => if i =? n then Some w else group m' n
  end.

(** Greedy repetition of [body]: one more round when it matches and
    consumes something, else the continuation.  [fuel] bounds the rounds and
    is more than the length of the text. *)
Fixpoint star_loop
    (body : str -> caps -> (str -> caps -> option (str * caps)) ->
            option (str * caps))
    (k : str -> caps -> option (str * caps))
    (fuel : nat) (s : str) (c : caps) {struct fuel} : option (str * caps) :=
  match fuel with
  | 0 => k s c
  | S fuel' =>
      match body s c
              (fun s1 c1 =>
                 if length s1 <? length s then star_loop body k fuel' s1 c1
                 else None) with
      | Some out => Some out
      | None => k s c
      end
  end.

(** [rmatch r s c k] matches [r] at the start of [s] and hands the rest of
    the text and the captures to the continuation [k]; a [None] from [k]
    makes the matcher backtrack. *)
Fixpoint rmatch (r : regex) (s : str) (c : caps)
    (k : str -> caps -> option (str * caps)) {struct r} : option (str * caps) :=
  match r with
  | Eps => k s c
  | Chr p =>
      match s with
      | a :: s' => if p a then k s' c else None
      | [] => None
      end
  | Seq r1 r2 => rmatch r1 s c (fun s1 c1 => rmatch r2 s1 c1 k)
  | Alt r1 r2 =>
      match rmatch r1 s c k with
      | Some out => Some out
      | None => rmatch r2 s c k
      end
  | Star r1 => star_loop (rmatch r1) k (S (length s)) s c
  | Group n r1 =>
      rmatch r1 s c
        (fun s1 c1 => k s1 ((n, firstn (length s - length s1) s) :: c1))
  end.

Definition accept : str -> caps -> option (str * caps) :=
  fun s c => Some (s, c).

(** [re.search]: the first start position with a match; group 0 is the
    whole match. *)
Fixpoint search_from (r : regex) (s : str) : option caps :=
  match rmatch r s [] accept with
  | Some (_, m) => Some m
  | None =>
      match s with
      | [] => None
      | _ :: s' => search_from r s'
      end
  end.

Definition re_search (r : regex) (s : str) : option caps :=
  search_from (Group 0 r) s.

(** *** Character classes *)

Definition is_digit (c : ascii) : bool := between 48 57 c.      (* [0-9], [\d] *)
Definition is_lower_hex (c : ascii) : bool := is_digit c || between 97 102 c.
(** [[0-9a-f]] under [re.I] *)
Definition is_hex_ci (c : ascii) : bool := is_lower_hex (lower_char c).
Definition is_dot_or_digit (c : ascii) : bool := is_digit c || Ascii.eqb c ".".
(** [.] matches everything but a newline *)
Definition any_char (c : ascii) : bool := negb (Ascii.eqb c "010").
Definition non_space (c : ascii) : bool := negb (isspace c).

(** *** What a pattern matches, declaratively *)

Fixpoint lang (r : regex) (w : str) : Prop :=
  match r with
  | Eps => w = []
  | Chr p => exists a, w = [a] /\ p a = true
  | Seq r1 r2 => exists w1 w2, w = w1 ++ w2 /\ lang r1 w1 /\ lang r2 w2
  | Alt r1 r2 => lang r1 w \/ lang r2 w
  | Star r1 => exists ws, w = concat ws /\ Forall (lang r1) ws
  | Group _ r1 => lang r1 w
  end.

End PyRe.

Import PyRe.

(** ** The program *)

Definition COMMON_USERNAMES : list str := [lit "cisco"; lit "admin"; lit "cisco123"].
Definition COMMON_PASSWORDS : list str :=
  [lit "cisco"; lit "cisco123"; lit "cisco99"; lit "admin"].

Definition CMD_ARP : str := lit "show ip arp".
Definition CMD_MAC : str := lit "show mac address-table".
Definition CMD_MAC_ALT : str := lit "show mac-address-table".
(** [CMD_CDP_INT_FMT.format(intf)] *)
Definition CMD_CDP_INT_FMT (intf : str) : str :=
  lit "show cdp neighbors " ++ intf ++ lit " detail".
Definition CMD_VER : str := lit "show version".

(** *** The patterns handed to [re.search] *)

Definition hex : regex := Chr is_hex_ci.
Definition dot : regex := Chr (Ascii.eqb ".").
Definition spaces : regex := Star (Chr isspace).

(** [([0-9a-f]{4}\.[0-9a-f]{4}\.[0-9a-f]{4})] with [re.I] *)
Definition RE_MAC_DOTTED : regex :=
  Group 1 (Seq (Rep 4 hex) (Seq dot (Seq (Rep 4 hex) (Seq dot (Rep 4 hex))))).

(** [([0-9a-f]{2}(:|-)){5}[0-9a-f]{2}] with [re.I] *)
Definition RE_MAC_OCTETS : regex :=
  Seq (Rep 5 (Group 1 (Seq (Rep 2 hex)
                           (Group 2 (Alt (Chr (Ascii.eqb ":")) (Chr (Ascii.eqb "-")))))))
      (Rep 2 hex).

(** [([0-9a-f]{12})] with [re.I] *)
Definition RE_MAC_PLAIN : regex := Group 1 (Rep 12 hex).

(** [IP address:\s*([\d\.]+)] *)
Definition RE_IP_ADDRESS : regex :=
  Seq (Lit (lit "IP address:")) (Seq spaces (Group 1 (Plus (Chr is_dot_or_digit)))).

(** [Port ID .*:\s*(\S+)] *)
Definition RE_PORT_ID : regex :=
  Seq (Lit (lit "Port ID "))
      (Seq (Star (Chr any_char))
           (Seq (Chr (Ascii.eqb ":")) (Seq spaces (Group 1 (Plus (Chr non_space)))))).

(** *** normalize_mac_to_dots *)

(** [mac_raw.strip().lower().replace(".", "").replace(":", "").replace("-", "")] *)
Definition mac_digits (mac_raw : str) : str :=
  remove_char "-" (remove_char ":" (remove_char "." (lower (strip mac_raw)))).

Definition dotted (s : str) : str :=
  slice 0 4 s ++ lit "." ++ slice 4 8 s ++ lit "." ++ slice 8 12 s.

Definition normalize_mac_to_dots (mac_raw : str) : option str :=
  match mac_raw with
  | [] => None
  | _ :: _ =>
      let s := mac_digits mac_raw in
      if negb (length s =? 12) then None
      else Some (dotted s)
  end.

(** [normalize_mac_to_dots(m.group(n))]; a group that took no part in the
    match is [None] in Python, which [normalize_mac_to_dots] maps to [None]. *)
Definition normalize_group (m : caps) (n : nat) : option str :=
  match group m n with
  | Some g => normalize_mac_to_dots g
  | None => None
  end.

(** *** find_mac_in_arp *)

(** The body of the loop for a line that contains the address: [Some r]
    when one of the three searches matched and the function returns [r],
    [None] when the loop goes on to the next line. *)
Definition mac_of_arp_line (line : str) : option (option str) :=
  match re_search RE_MAC_DOTTED line with
  | Some m => Some (normalize_group m 1)
  | None =>
      match re_search RE_MAC_OCTETS line with
      | Some m2 => Some (normalize_group m2 0)
      | None =>
          match re_search RE_MAC_PLAIN (remove_char " " line) with
          | Some m3 => Some (normalize_group m3 1)
          | None => None
          end
      end
  end.

Fixpoint find_mac_in_lines (lines : list str) (ip_target : str) : option str :=
  match lines with
  | [] => None
  | line :: rest =>
      if contains line ip_target then
        match mac_of_arp_line line with
        | Some r => r
        | None => find_mac_in_lines rest ip_target
        end
      else find_mac_in_lines rest ip_target
  end.

Definition find_mac_in_arp (arp_output ip_target : str) : option str :=
  find_mac_in_lines (splitlines arp_output) ip_target.

(** *** find_interface_by_mac *)

Fixpoint find_interface_in_lines (lines : list str) (mac_normalized : str)
  : option str :=
  match lines with
  | [] => None
  | line :: rest =>
      if truthy (Some mac_normalized)
         && contains (lower line) (lower mac_normalized) then
        let parts := split line in
        if 4 <=? length parts then Some (last parts [])
        else find_interface_in_lines rest mac_normalized
      else find_interface_in_lines rest mac_normalized
  end.

Definition find_interface_by_mac (mac_table_output mac_normalized : str)
  : option str :=
  find_interface_in_lines (splitlines mac_table_output) mac_normalized.

(** *** parse_cdp_int_detail_for_ip *)

(** The dictionary that is returned. *)
Record cdp_info : Type := {
  device_id : str;
  ips : list str;
  neighbor_port : option str
}.

(** The three variables of the loop: [device_id], [ips], [neighbor_port]. *)
Definition cdp_vars : Type := (option str * list str * option str)%type.

(** [line.split(":", 1)[1]]; the index is in range whenever the line has a
    colon, which the guard of its one use ensures
    (lemma [startswith_device_id_colon]). *)
Definition after_colon (line : str) : str :=
  match split_once ":" line with
  | Some (_, t) => t
  | None => []
  end.

(** One iteration on one line. *)
Definition cdp_line (v : cdp_vars) (line0 : str) : cdp_vars :=
  let '(device_id, ips, neighbor_port) := v in
  let line := strip line0 in
  let device_id :=
    if startswith (lower line) (lit "device id:")
    then Some (strip (after_colon line)) else device_id in
  let ips :=
    match re_search RE_IP_ADDRESS line with
    | Some m_ip =>
        match group m_ip 1 with Some g => ips ++ [g] | None => ips end
    | None => ips
    end in
  let neighbor_port :=
    match re_search RE_PORT_ID line with
    | Some m_port => group m_port 1
    | None => neighbor_port
    end in
  (device_id, ips, neighbor_port).

Definition parse_cdp_int_detail_for_ip (cdp_output : str) : option cdp_info :=
  if negb (truthy (Some cdp_output))
     || negb (contains cdp_output (lit "Device ID")) then None
  else
    let '(device_id, ips, neighbor_port) :=
      fold_left cdp_line (splitlines cdp_output) (None, [], None) in
    match device_id with
    | Some (c :: d) =>
        Some {| device_id := c :: d; ips := ips; neighbor_port := neighbor_port |}
    | _ => None
    end.

(** *** get_hostname_from_show_ver *)

(** [line.split()[0]] is in range when the line contains [" uptime "]
    (lemma [split_uptime_nonempty]). *)
Fixpoint hostname_in_lines (lines : list str) : option str :=
  match lines with
  | [] => None
  | line :: rest =>
      if contains line (lit " uptime ") then Some (hd [] (split line))
      else if startswith (lower line) (lit "hostname") then
        let parts := split line in
        if 2 <=? length parts then Some (last parts [])
        else hostname_in_lines rest
      else hostname_in_lines rest
  end.

Definition get_hostname_from_show_ver (show_ver : str) : option str :=
  hostname_in_lines (splitlines show_ver).

(** *** try_connect: the candidate list *)

(** Equality of two pairs of strings. *)
Definition pair_eqb (a b : str * str) : bool :=
  str_eqb (fst a) (fst b) && str_eqb (snd a) (snd b).

(** [x in combos] *)
Definition pair_in (x : str * str) (combos : list (str * str)) : bool :=
  existsb (pair_eqb x) combos.

(** The nested loops over the two lists, appending the pairs not yet in
    [combos]. *)
Definition add_cross (users passwords : list str) (combos : list (str * str))
  : list (str * str) :=
  fold_left
    (fun combos u =>
       fold_left
         (fun combos p =>
            if negb (pair_in (u, p) combos) then combos ++ [(u, p)] else combos)
         passwords combos)
    users combos.

Definition combos_of (users passwords : list str) (user_given pass_given : str)
  : list (str * str) :=
  let combos := [(user_given, pass_given)] in
  let combos :=
    combos ++ map (fun p => (user_given, p))
                  (filter (fun p => negb (str_eqb p pass_given)) passwords) in
  let combos :=
    combos ++ map (fun u => (u, pass_given))
                  (filter (fun u => negb (str_eqb u user_given)) users) in
  add_cross users passwords combos.

Definition combos (user_given pass_given : str) : list (str * str) :=
  combos_of COMMON_USERNAMES COMMON_PASSWORDS user_given pass_given.

(** *** Effects

    The devices are reached through netmiko, which is not part of the
    program: a connection attempt and a command either answer or raise.
    A computation is modelled by the list of the calls it made, in order,
    and by its outcome, a value or a raised exception. *)

(** The keyword arguments given to [ConnectHandler]. *)
Record netmiko_device : Type := {
  device_type : str;
  host : str;
  username : str;
  password : str;
  timeout : nat
}.

(** The dictionary returned by the walk. *)
Record TraceResult : Type := {
  ip : str;
  device : str;
  interface : str;
  mac : str
}.

Inductive result (A : Type) : Type :=
| Ok (a : A)
| Raise.
Arguments Ok {A} a.
Arguments Raise {A}.

Section Network.

(** An open session. *)
Variable conn : Type.

(** [ConnectHandler]: [None] when it raises. *)
Variable ConnectHandler : netmiko_device -> option conn.

(** [conn.send_command(cmd)]: [None] when it raises.  The answers of a
    device do not change during a trace. *)
Variable send_command : conn -> str -> option str.

Inductive event : Type :=
| Dial (d : netmiko_device)         (* ConnectHandler *)
| Enable (c : conn)                 (* conn.enable() *)
| Send (c : conn) (cmd : str)       (* conn.send_command(cmd) *)
| Disconnect (c : conn)             (* conn.disconnect() *)
| Sleep (seconds : nat).            (* time.sleep(seconds) *)

Definition M (A : Type) : Type := (list event * result A)%type.

Definition ret {A} (a : A) : M A := ([], Ok a).

Definition bind {A B} (m : M A) (f : A -> M B) : M B :=
  match m with
  | (l, Ok a) => let (l', r) := f a in (l ++ l', r)
  | (l, Raise) => (l, Raise)
  end.

Definition tell (e : event) : M unit := ([e], Ok tt).

Notation "x <- m ;; f" := (bind m (fun x => f))
  (at level 61, m at next level, right associativity).
Notation "m ;; f" := (bind m (fun _ => f))
  (at level 61, right associativity).

Definition send (c : conn) (cmd : str) : M str :=
  match send_command c cmd with
  | Some out => ([Send c cmd], Ok out)
  | None => ([Send c cmd], Raise)
  end.

(** *** try_connect *)

(** The loop over [combos]: every exception of an attempt is caught, and so
    is the one of [enable]. *)
Fixpoint try_combos (host : str) (timeout : nat) (combos : list (str * str))
  : M (option (conn * (str * str))) :=
  match combos with
  | [] => ret None
  | (user, pwd) :: rest =>
      let device := {| device_type := lit "cisco_ios"; host := host;
                       username := user; password := pwd;
                       timeout := timeout |} in
      tell (Dial device) ;;
      match ConnectHandler device with
      | Some c => tell (Enable c) ;; ret (Some (c, (user, pwd)))
      | None => try_combos host timeout rest
      end
  end.

Definition try_connect (host user_given pass_given : str) (timeout : nat)
  : M (option (conn * (str * str))) :=
  try_combos host timeout (combos user_given pass_given).

(** *** rastrear_ip_hasta_host *)

(** How one pass through the body of [while True] ends. *)
Inductive step : Type :=
| Return (r : option TraceResult)
| Next (next_host : str).

Definition hop (user pwd ip_objetivo current_host : str) : M step :=
  r <- try_connect current_host user pwd 7 ;;
  match r with
  | None => ret (Return None)
  | Some (c, _) =>
      show_ver <- send c CMD_VER ;;
      let hostname :=
        match get_hostname_from_show_ver show_ver with
        | Some (a :: h) => a :: h
        | _ => current_host
        end in
      arp_out <- send c CMD_ARP ;;
      match find_mac_in_arp arp_out ip_objetivo with
      | None | Some [] => tell (Disconnect c) ;; ret (Return None)
      | Some mac_found =>
          mac_table_out <- send c CMD_MAC ;;
          mac_table_out <-
            (if negb (truthy (Some mac_table_out))
                || contains mac_table_out (lit "Invalid input")
             then send c CMD_MAC_ALT else ret mac_table_out) ;;
          match find_interface_by_mac mac_table_out mac_found with
          | None | Some [] => tell (Disconnect c) ;; ret (Return None)
          | Some intf =>
              cdp_out <- send c (CMD_CDP_INT_FMT intf) ;;
              let vecino_info := parse_cdp_int_detail_for_ip cdp_out in
              tell (Disconnect c) ;;
              let found := {| ip := ip_objetivo; device := hostname;
                              interface := intf; mac := mac_found |} in
              match vecino_info with
              | None => ret (Return (Some found))
              | Some info =>
                  match ips info with
                  | [] => ret (Return (Some found))
                  | next_host :: _ => tell (Sleep 1) ;; ret (Next next_host)
                  end
              end
          end
      end
  end.

(** The loop, unfolded at most [fuel] times: [None] when the loop is still
    running after [fuel] passes.  [visited_hosts] is the set created before
    the loop; the body never reads or updates it. *)
Fixpoint rastrear_loop (fuel : nat) (user pwd ip_objetivo : str)
    (visited_hosts : list str) (current_host : str)
  : list event * option (result (option TraceResult)) :=
  match fuel with
  | 0 => ([], None)
  | S fuel' =>
      match hop user pwd ip_objetivo current_host with
      | (l, Raise) => (l, Some Raise)
      | (l, Ok (Return r)) => (l, Some (Ok r))
      | (l, Ok (Next next_host)) =>
          let (l', o) :=
            rastrear_loop fuel' user pwd ip_objetivo visited_hosts next_host in
          (l ++ l', o)
      end
  end.

Definition rastrear_ip_hasta_host (fuel : nat)
    (start_switch user pwd ip_objetivo : str)
  : list event * option (result (option TraceResult)) :=
  rastrear_loop fuel user pwd ip_objetivo [] start_switch.

(** *** main *)

(** What the operator is asked and shown. *)
Inductive console : Type :=
| Input (prompt : str)         (* input(prompt) *)
| Getpass (prompt : str)       (* getpass.getpass(prompt) *)
| PrintLine (text : str).      (* print(text) *)

(** The four prompts, in order.  The third is [Contrase], [n] with tilde,
    [a: ]. *)
Definition prompts : list console :=
  [Input (lit "Switch inicial: ");
   Input (lit "Usuario: ");
   Getpass (lit "Contrase" ++ "241"%char :: lit "a: ");
   Input (lit "IP objetivo: ")].

(** [No se encontr], [o] with acute accent, [.] *)
Definition NOT_FOUND : str := lit "No se encontr" ++ "243"%char :: lit ".".

(** The four lines of the report; the first begins and the last ends with a
    line feed of its own. *)
Definition report (data : TraceResult) : list str :=
  ["010"%char :: lit "IP: " ++ ip data;
   lit "Dispositivo: " ++ device data;
   lit "Interfaz: " ++ interface data;
   lit "MAC: " ++ mac data ++ ["010"%char]].

(** [main], with the lines [typed] at the prompts: the calls of the console
    and of the network, in order, and how it ends.  A prompt that gets no
    line raises. *)
Definition main (fuel : nat) (typed : list str)
  : list (console + event) * option (result unit) :=
  match typed with
  | t1 :: t2 :: t3 :: t4 :: _ =>
      let start_switch := strip t1 in
      let user := strip t2 in
      let pwd := strip t3 in
      let ip_obj := strip t4 in
      let (l, data) := rastrear_ip_hasta_host fuel start_switch user pwd ip_obj in
      let calls := map inl prompts ++ map inr l in
      match data with
      | None => (calls, None)
      | Some Raise => (calls, Some Raise)
      | Some (Ok None) => (calls ++ [inl (PrintLine NOT_FOUND)], Some (Ok tt))
      | Some (Ok (Some data)) =>
          (calls ++ map (fun line => inl (PrintLine line)) (report data),
           Some (Ok tt))
      end
  | _ => (map inl (firstn (S (length typed)) prompts), Some Raise)
  end.

(** *** What a hop observes *)

(** The credentials of the connection attempts among the calls made. *)
Definition dialed (l : list event) : list (str * str) :=
  flat_map (fun e => match e with
                     | Dial d => [(username d, password d)]
                     | _ => []
                     end) l.

(** The display name: the extracted hostname, or the dialed address. *)
Definition hostname_or (show_ver current_host : str) : str :=
  match get_hostname_from_show_ver show_ver with
  | Some (a :: h) => a :: h
  | _ => current_host
  end.

(** The table that is searched: the answer to [CMD_MAC], or to
    [CMD_MAC_ALT] when the first is empty or rejects the command. *)
Definition mac_table_of (c : conn) : option str :=
  match send_command c CMD_MAC with
  | Some out =>
      if negb (truthy (Some out)) || contains out (lit "Invalid input")
      then send_command c CMD_MAC_ALT else Some out
  | None => None
  end.

(** The hosts of the connection attempts among the calls made. *)
Definition dialed_hosts (l : list event) : list str :=
  flat_map (fun e => match e with
                     | Dial d => [host d]
                     | _ => []
                     end) l.

(** The decision that ends a pass, once the session is released: the calls
    it makes and how the pass ends. *)
Definition decide (found : TraceResult) (vecino_info : option cdp_info)
  : list event * step :=
  match vecino_info with
  | None => ([], Return (Some found))
  | Some info =>
      match ips info with
      | [] => ([], Return (Some found))
      | next_host :: _ => ([Sleep 1], Next next_host)
      end
  end.

Section Trace.

Variables user pwd ip_objetivo : str.

(** The hop at [current_host] got through the four lookups: connected as
    [c], read [show_ver], resolved [mac_found], found [intf] and read the
    neighbor detail [cdp_out] of that interface. *)
Inductive discovers (current_host : str) (c : conn)
    (show_ver mac_found intf cdp_out : str) : Prop :=
| Discovers (creds : str * str) (arp_out mac_table_out : str) :
    snd (try_connect current_host user pwd 7) = Ok (Some (c, creds)) ->
    send_command c CMD_VER = Some show_ver ->
    send_command c CMD_ARP = Some arp_out ->
    find_mac_in_arp arp_out ip_objetivo = Some mac_found ->
    mac_table_of c = Some mac_table_out ->
    find_interface_by_mac mac_table_out mac_found = Some intf ->
    send_command c (CMD_CDP_INT_FMT intf) = Some cdp_out ->
    discovers current_host c show_ver mac_found intf cdp_out.

(** The hop at [current_host] fails at step 1, 3 or 4. *)
Inductive hop_fails (current_host : str) : Prop :=
| Fails_connect :
    snd (try_connect current_host user pwd 7) = Ok None ->
    hop_fails current_host
| Fails_arp c creds show_ver arp_out :
    snd (try_connect current_host user pwd 7) = Ok (Some (c, creds)) ->
    send_command c CMD_VER = Some show_ver ->
    send_command c CMD_ARP = Some arp_out ->
    find_mac_in_arp arp_out ip_objetivo = None ->
    hop_fails current_host
| Fails_mac_table c creds show_ver arp_out mac_found mac_table_out :
    snd (try_connect current_host user pwd 7) = Ok (Some (c, creds)) ->
    send_command c CMD_VER = Some show_ver ->
    send_command c CMD_ARP = Some arp_out ->
    find_mac_in_arp arp_out ip_objetivo = Some mac_found ->
    mac_table_of c = Some mac_table_out ->
    find_interface_by_mac mac_table_out mac_found = None ->
    hop_fails current_host.

(** [reaches n h h']: starting at [h], the walk is at [h'] after [n]
    transit hops. *)
Inductive reaches : nat -> str -> str -> Prop :=
| Reaches_here h : reaches 0 h h
| Reaches_next n h next_host h' l :
    hop user pwd ip_objetivo h = (l, Ok (Next next_host)) ->
    reaches n next_host h' ->
    reaches (S n) h h'.

End Trace.

End Network.

Arguments Dial {conn} d.
Arguments Enable {conn} c.
Arguments Send {conn} c cmd.
Arguments Disconnect {conn} c.
Arguments Sleep {conn} seconds.
Arguments send {conn} send_command c cmd.
Arguments try_combos {conn} ConnectHandler host timeout combos.
Arguments try_connect {conn} ConnectHandler host user_given pass_given timeout.
Arguments hop {conn} ConnectHandler send_command user pwd ip_objetivo current_host.
Arguments rastrear_loop {conn} ConnectHandler send_command fuel user pwd
  ip_objetivo visited_hosts current_host.
Arguments rastrear_ip_hasta_host {conn} ConnectHandler send_command fuel
  start_switch user pwd ip_objetivo.
Arguments dialed {conn} l.
Arguments dialed_hosts {conn} l.
Arguments decide {conn} found vecino_info.
Arguments ret {conn A} a.
Arguments bind {conn A B} m f.
Arguments tell {conn} e.
Arguments mac_table_of {conn} send_command c.
Arguments discovers {conn} ConnectHandler send_command user pwd ip_objetivo
  current_host c show_ver mac_found intf cdp_out.
Arguments hop_fails {conn} ConnectHandler send_command user pwd ip_objetivo
  current_host.
Arguments reaches {conn} ConnectHandler send_command user pwd ip_objetivo.
Arguments main {conn} ConnectHandler send_command fuel typed.

(** * The vocabulary of the properties *)

(** ** Hardware addresses *)

(** The separators that [normalize_mac_to_dots] removes. *)
Definition is_sep (a : ascii) : bool :=
  Ascii.eqb a "." || Ascii.eqb a ":" || Ascii.eqb a "-".

(** Twelve lowercase hexadecimal digits grouped as [xxxx.xxxx.xxxx]. *)
Definition is_canonical_mac (m : str) : bool :=
  match m with
  | [a1; a2; a3; a4; p; b1; b2; b3; b4; q; c1; c2; c3; c4] =>
      forallb is_lower_hex [a1; a2; a3; a4; b1; b2; b3; b4; c1; c2; c3; c4]
      && Ascii.eqb p "." && Ascii.eqb q "."
  | _ => false
  end.

(** A hexadecimal digit, in either letter case, or a separator. *)
Definition hex_or_sep (a : ascii) : Prop := is_hex_ci a = true \/ is_sep a = true.

(** A text of digits and separators holding twelve digits. *)
Definition mac_text (w : str) : Prop :=
  Forall hex_or_sep w /\ length (filter is_hex_ci w) = 12.

(** ** Lines of the ARP table *)

(** [re.search(r, s)] finds a match. *)
Definition matches (r : regex) (s : str) : bool :=
  match re_search r s with
  | Some _ => true
  | None => false
  end.

(** The text of group [n] of the first match of [r] in [s]. *)
Definition matched_text (r : regex) (n : nat) (s : str) : option str :=
  match re_search r s with
  | Some m => group m n
  | None => None
  end.

(** The line shows an address in one of the three forms. *)
Definition has_mac_form (line : str) : bool :=
  matches RE_MAC_DOTTED line
  || matches RE_MAC_OCTETS line
  || matches RE_MAC_PLAIN (remove_char " " line).

(** The address in the first of the three forms that the line shows:
    dotted groups, then octets separated by colons or dashes, then twelve
    digits in a row once the spaces are removed. *)
Definition first_mac_form (line : str) : option str :=
  if matches RE_MAC_DOTTED line then matched_text RE_MAC_DOTTED 1 line
  else if matches RE_MAC_OCTETS line then matched_text RE_MAC_OCTETS 0 line
  else matched_text RE_MAC_PLAIN 1 (remove_char " " line).

(** [normalize_mac_to_dots] on a text that may be missing. *)
Definition normalize_opt (o : option str) : option str :=
  match o with
  | Some w => normalize_mac_to_dots w
  | None => None
  end.

(** An ARP table with an unresolved entry before the resolved one. *)
Definition arp_two_entries : str :=
  lit "Internet  10.0.0.5   0   Incomplete      ARPA" ++ ["010"%char] ++
  lit "Internet  10.0.0.5   -   aabb.ccdd.eeff  ARPA  Vlan1".

(** ** Lines of the version banner *)

(** The lines on which the loop returns. *)
Definition hostname_line (line : str) : bool :=
  contains line (lit " uptime ")
  || (startswith (lower line) (lit "hostname") && (2 <=? length (split line))).

(** What is returned on such a line: its first field when it contains
    [" uptime "], else its last field. *)
Definition hostname_of_line (line : str) : option str :=
  if contains line (lit " uptime ") then hd_error (split line)
  else Some (last (split line) []).

(** A text with a [hostname] line before the uptime line. *)
Definition show_ver_hostname_first : str :=
  lit "hostname SW9" ++ ["010"%char] ++ lit "SW1 uptime is 5 days".

(** ** Rows of the MAC table *)

(** The rows that are accepted: the address occurs in them, whatever the
    letter case, and they have four fields or more. *)
Definition mac_table_row (mac : str) (line : str) : bool :=
  contains (lower line) (lower mac) && (4 <=? length (split line)).

(** A MAC table whose first line has the address and three fields only. *)
Definition mac_table_short_row : str :=
  lit "aabb.ccdd.eeff  DYNAMIC  Gi9/9" ++ ["010"%char] ++
  lit "  1    AABB.CCDD.EEFF    DYNAMIC     Gi1/0/1".

(** ** Lines of the neighbor detail *)

(** The values that [f] gives on a list, in order. *)
Fixpoint filter_map {A B : Type} (f : A -> option B) (l : list A) : list B :=
  match l with
  | [] => []
  | x :: l' =>
      match f x with
      | Some y => y :: filter_map f l'
      | None => filter_map f l'
      end
  end.

(** The last element, if any. *)
Definition last_opt {A : Type} (l : list A) : option A := last (map Some l) None.

(** The device name on a line that starts with [device id:], in any letter
    case: what follows the first colon, stripped. *)
Definition device_id_of_line (line : str) : option str :=
  if startswith (lower line) (lit "device id:")
  then Some (strip (after_colon line)) else None.

(** The address on a line that shows [IP address:] followed by digits and
    dots, and the port on a line that shows [Port ID ...:] followed by a
    word. *)
Definition ip_of_line (line : str) : option str :=
  matched_text RE_IP_ADDRESS 1 line.

Definition port_of_line (line : str) : option str :=
  matched_text RE_PORT_ID 1 line.

(** A variable that is assigned when a new value comes. *)
Definition or_keep {A : Type} (new old : option A) : option A :=
  match new with
  | Some x => Some x
  | None => old
  end.

(** The lines as the loop sees them. *)
Definition cdp_lines (cdp_output : str) : list str :=
  map strip (splitlines cdp_output).

(** A neighbor detail whose device-id line gives no name. *)
Definition cdp_empty_device_id : str :=
  lit "Device ID:" ++ ["010"%char] ++ lit "IP address: 10.0.0.1".

(** ** Candidates *)

(** Appending the pairs of a list that are not there yet. *)
Definition add_new (combos : list (str * str)) (x : str * str) :=
  if negb (pair_in x combos) then combos ++ [x] else combos.

(** ** Tokens and rows *)

(** A field as [split] gives them: not empty and free of whitespace. *)
Definition is_token (t : str) : bool :=
  match t with
  | [] => false
  | _ :: _ => forallb non_space t
  end.

(** ** Calls *)

(** The sessions opened and the sessions released among the calls made. *)
Definition opened {conn : Type} (l : list (event conn)) : nat :=
  length (filter (fun e => match e with Enable _ => true | _ => false end) l).

Definition closed {conn : Type} (l : list (event conn)) : nat :=
  length (filter (fun e => match e with Disconnect _ => true | _ => false end) l).

(** The commands sent among the calls made. *)
Definition sent {conn : Type} (l : list (event conn)) : list str :=
  flat_map (fun e => match e with Send _ cmd => [cmd] | _ => [] end) l.

(** The calls that fetch the MAC table: the first command, and the alternate
    one when the first answer is empty or rejects the command. *)
Definition mac_table_calls {conn : Type}
    (send_command : conn -> str -> option str) (c : conn)
  : list (event conn) :=
  match send_command c CMD_MAC with
  | Some out =>
      if negb (truthy (Some out)) || contains out (lit "Invalid input")
      then [Send c CMD_MAC; Send c CMD_MAC_ALT] else [Send c CMD_MAC]
  | None => [Send c CMD_MAC]
  end.

(** The keyword arguments of an attempt with the pair [cred]. *)
Definition device_for (host : str) (timeout : nat) (cred : str * str)
  : netmiko_device :=
  {| device_type := lit "cisco_ios"; host := host;
     username := fst cred; password := snd cred; timeout := timeout |}.

(** The first value that [f] gives on a list. *)
Fixpoint first_some {A B : Type} (f : A -> option B) (l : list A) : option B :=
  match l with
  | [] => None
  | x :: l' =>
      match f x with
      | Some y => Some y
      | None => first_some f l'
      end
  end.

(** The elements up to the first one that satisfies [f], included. *)
Fixpoint up_to_first {A : Type} (f : A -> bool) (l : list A) : list A :=
  match l with
  | [] => []
  | x :: l' => if f x then [x] else x :: up_to_first f l'
  end.

(** An ARP table that knows [10.0.0.50] only. *)
Definition arp_other_host : str :=
  lit "Internet  10.0.0.50   -   0011.2233.4455  ARPA  Vlan1".

(** The commands of the walk: the four fixed ones, and the neighbor detail
    of an interface named by a field of the MAC table. *)
Definition walk_command (cmd : str) : Prop :=
  cmd = CMD_VER \/ cmd = CMD_ARP \/ cmd = CMD_MAC \/ cmd = CMD_MAC_ALT \/
  exists intf, is_token intf = true /\ cmd = CMD_CDP_INT_FMT intf.

(** An address as the neighbor parse gives them: digits and dots. *)
Definition dotted_digits (h : str) : Prop :=
  h <> [] /\ forallb is_dot_or_digit h = true.

(** The discipline of the sessions.  [protocol cur l final]: the calls [l],
    made when the session [cur] is open ([None]: no session), are in order
    and leave [final] open: a host is dialed and the walk sleeps only when no
    session is open, the call [enable] of an accepted attempt opens its
    session, a command is sent to the session that is open, and the session
    that is released is the one that is open. *)
Fixpoint protocol {conn : Type} (cur : option conn) (l : list (event conn))
    (final : option conn) : Prop :=
  match l with
  | [] => cur = final
  | Dial _ :: l' => cur = None /\ protocol None l' final
  | Enable c :: l' => cur = None /\ protocol (Some c) l' final
  | Send c _ :: l' => cur = Some c /\ protocol cur l' final
  | Disconnect c :: l' => cur = Some c /\ protocol None l' final
  | Sleep _ :: l' => cur = None /\ protocol None l' final
  end.

(** How the sessions stand when a pass or a trace stops: all released,
    unless an exception stopped it, which leaves one open. *)
Definition sessions_in_order {conn : Type} (l : list (event conn))
    (raised : bool) : Prop :=
  if raised then exists c, protocol None l (Some c) else protocol None l None.

(** Whether an exception ended the pass, or the trace. *)
Definition hop_raised {A : Type} (r : result A) : bool :=
  match r with Raise => true | Ok _ => false end.

Definition trace_raised {A : Type} (o : option (result A)) : bool :=
  match o with Some Raise => true | _ => false end.

(** The pauses among the calls made. *)
Definition sleeps {conn : Type} (l : list (event conn)) : list nat :=
  flat_map (fun e => match e with Sleep s => [s] | _ => [] end) l.

(** The lines printed and the calls of the network among the calls made. *)
Definition printed {conn : Type} (l : list (console + event conn)) : list str :=
  flat_map (fun e => match e with inl (PrintLine text) => [text] | _ => [] end) l.

Definition network {conn : Type} (l : list (console + event conn))
  : list (event conn) :=
  flat_map (fun e => match e with inr e' => [e'] | inl _ => [] end) l.

(** ** A small network

    Two switches that accept [admin] / [cisco123].  The target is seen on
    [Gi1/0/1] of both; the neighbor detail of that port is a parameter, and
    so is the ARP table of the second switch.  The second switch shows no
    hostname and knows the alternate MAC table command only. *)

Module Lab.

Definition sw1 : str := lit "10.0.0.1".
Definition sw2 : str := lit "10.0.0.2".
Definition target : str := lit "10.0.0.5".
Definition nl : str := ["010"%char].

Definition connect (d : netmiko_device) : option str :=
  if (str_eqb (host d) sw1 || str_eqb (host d) sw2)
     && str_eqb (username d) (lit "admin")
     && str_eqb (password d) (lit "cisco123")
  then Some (host d) else None.

Definition arp_table : str :=
  lit "Internet  10.0.0.5   -   aabb.ccdd.eeff  ARPA  Vlan1".

Definition mac_table : str := lit "  1    aabb.ccdd.eeff    DYNAMIC     Gi1/0/1".

Definition cdp_to (name addr : str) : str :=
  lit "Device ID: " ++ name ++ nl ++
  lit "  IP address: " ++ addr ++ nl ++
  lit "Interface: GigabitEthernet1/0/1,  Port ID (outgoing port): Gi0/1".

Definition answers (arp2 cdp1 cdp2 : str) (c cmd : str) : option str :=
  if str_eqb cmd CMD_VER then
    Some (if str_eqb c sw1 then lit "SW1 uptime is 5 days"
          else lit "Cisco IOS Software")
  else if str_eqb cmd CMD_ARP then
    Some (if str_eqb c sw1 then arp_table else arp2)
  else if str_eqb cmd CMD_MAC then
    Some (if str_eqb c sw1 then mac_table else lit "% Invalid input detected")
  else if str_eqb cmd CMD_MAC_ALT then Some mac_table
  else if str_eqb cmd (CMD_CDP_INT_FMT (lit "Gi1/0/1")) then
    Some (if str_eqb c sw1 then cdp1 else cdp2)
  else None.

(** [sw1] reports [sw2] as its neighbor, and [sw2] has no neighbor. *)
Definition chain : str -> str -> option str :=
  answers arp_table (cdp_to (lit "SW2") sw2) [].

(** The same, and [sw2] does not know the target. *)
Definition chain_unresolved : str -> str -> option str :=
  answers (lit "Internet  10.0.0.7   -   0011.2233.4455  ARPA  Vlan1")
          (cdp_to (lit "SW2") sw2) [].

(** [sw1] reports [sw2] and [sw2] reports [sw1]. *)
Definition cycle : str -> str -> option str :=
  answers arp_table (cdp_to (lit "SW2") sw2) (cdp_to (lit "SW1") sw1).

(** A device that refuses every connection. *)
Definition refuse (d : netmiko_device) : option unit := None.
Definition silent (c : unit) (cmd : str) : option str := None.

(** The same as [chain], and every other command gets an empty answer: no
    command raises. *)
Definition chain_answered (c cmd : str) : option str :=
  match chain c cmd with
  | Some out => Some out
  | None => Some []
  end.

(** The same as [chain], and the ARP command raises. *)
Definition chain_arp_raises (c cmd : str) : option str :=
  if str_eqb cmd CMD_ARP then None else chain c cmd.

End Lab.

(** * Properties *)

(** ** Characters *)

(** Case analysis on the 256 characters. *)
Ltac by_cases_on_char a :=
  destruct a as [[] [] [] [] [] [] [] []]; vm_compute; try reflexivity;
  try discriminate; auto.

Lemma hex_ci_not_space a : is_hex_ci a = true -> isspace a = false.
Proof. by_cases_on_char a. Qed.

Lemma hex_ci_lower_kept a :
  is_hex_ci a = true ->
  negb (Ascii.eqb (lower_char a) ".") = true /\
  negb (Ascii.eqb (lower_char a) ":") = true /\
  negb (Ascii.eqb (lower_char a) "-") = true.
Proof. by_cases_on_char a. Qed.

Lemma lower_hex_fixed a : is_lower_hex a = true -> lower_char a = a.
Proof. by_cases_on_char a. Qed.

Lemma lower_hex_is_hex_ci a : is_lower_hex a = true -> is_hex_ci a = true.
Proof. by_cases_on_char a. Qed.

Lemma sep_not_space a : is_sep a = true -> isspace a = false.
Proof. by_cases_on_char a. Qed.

Lemma sep_lower_removed a :
  is_sep a = true ->
  negb (Ascii.eqb (lower_char a) ".") && negb (Ascii.eqb (lower_char a) ":")
  && negb (Ascii.eqb (lower_char a) "-") = false.
Proof. by_cases_on_char a. Qed.

Lemma sep_not_hex a : is_sep a = true -> is_hex_ci a = false.
Proof. by_cases_on_char a. Qed.

Lemma eqb_ascii_eq a b : Ascii.eqb a b = true -> a = b.
Proof. apply Ascii.eqb_eq. Qed.

(** ** Stripping *)

Lemma lstrip_noop s : (forall a t, s = a :: t -> isspace a = false) -> lstrip s = s.
Proof.
  destruct s as [|a t]; intros H; simpl; [reflexivity|].
  now rewrite (H a t eq_refl).
Qed.

Lemma strip_no_space s :
  Forall (fun a => isspace a = false) s -> strip s = s.
Proof.
  intros H. unfold strip, rstrip.
  rewrite (lstrip_noop s).
  - rewrite (lstrip_noop (rev s)).
    + apply rev_involutive.
    + intros a t E. rewrite Forall_forall in H. apply H.
      apply in_rev. rewrite E. now left.
  - intros a t E. subst s. now inversion H.
Qed.

(** ** normalize_mac_to_dots *)

Lemma hex_or_sep_no_space w :
  Forall hex_or_sep w -> Forall (fun a => isspace a = false) w.
Proof.
  apply Forall_impl. intros a [H|H];
    [now apply hex_ci_not_space | now apply sep_not_space].
Qed.

Lemma remove_seps_filter s :
  remove_char "-" (remove_char ":" (remove_char "." s)) =
  filter (fun a => negb (Ascii.eqb a ".") && negb (Ascii.eqb a ":")
                   && negb (Ascii.eqb a "-")) s.
Proof.
  unfold remove_char. induction s as [|a s IH]; simpl; [reflexivity|].
  destruct (Ascii.eqb a "."); simpl; [assumption|].
  destruct (Ascii.eqb a ":"); simpl; [assumption|].
  destruct (Ascii.eqb a "-"); simpl; [assumption|].
  now rewrite IH.
Qed.

(** On a text made of hexadecimal digits and separators, the digits are
    kept, lower-cased, and the separators go. *)
Lemma mac_digits_hex_or_sep w :
  Forall hex_or_sep w -> mac_digits w = map lower_char (filter is_hex_ci w).
Proof.
  intros H. unfold mac_digits.
  rewrite (strip_no_space w (hex_or_sep_no_space w H)).
  rewrite remove_seps_filter. unfold lower.
  induction H as [|a w Ha _ IH]; simpl; [reflexivity|].
  destruct Ha as [Ha|Ha].
  - rewrite Ha. destruct (hex_ci_lower_kept a Ha) as (E1 & E2 & E3).
    rewrite E1, E2, E3. simpl. now rewrite IH.
  - rewrite (sep_not_hex a Ha), (sep_lower_removed a Ha). exact IH.
Qed.

Lemma normalize_hex_or_sep w :
  Forall hex_or_sep w -> length (filter is_hex_ci w) = 12 ->
  normalize_mac_to_dots w = Some (dotted (map lower_char (filter is_hex_ci w))).
Proof.
  intros H L. unfold normalize_mac_to_dots.
  destruct w as [|a w']; [discriminate|].
  rewrite (mac_digits_hex_or_sep _ H), length_map, L. reflexivity.
Qed.

Lemma dotted_canonical s :
  length s = 12 -> forallb is_lower_hex s = true ->
  is_canonical_mac (dotted s) = true.
Proof.
  intros L H.
  do 12 (destruct s as [|? s]; [discriminate|]).
  destruct s; [|discriminate].
  unfold dotted, slice. simpl in *. now rewrite H.
Qed.

Lemma hex_digits_lowered w :
  forallb is_lower_hex (map lower_char (filter is_hex_ci w)) = true.
Proof.
  induction w as [|a w IH]; simpl; [reflexivity|].
  destruct (is_hex_ci a) eqn:E; simpl; [|assumption].
  unfold is_hex_ci in E. now rewrite E.
Qed.

(** A text of digits and separators with twelve digits normalizes to a
    canonical address. *)
Lemma normalize_hex_or_sep_canonical w :
  Forall hex_or_sep w -> length (filter is_hex_ci w) = 12 ->
  exists m, normalize_mac_to_dots w = Some m /\ is_canonical_mac m = true.
Proof.
  intros H L. eexists. split; [now apply normalize_hex_or_sep|].
  apply dotted_canonical; [now rewrite length_map | apply hex_digits_lowered].
Qed.

Lemma canonical_shape m :
  is_canonical_mac m = true ->
  exists s, length s = 12 /\ forallb is_lower_hex s = true /\ m = dotted s.
Proof.
  intros H.
  do 14 (destruct m as [|? m]; [discriminate|]).
  destruct m; [|discriminate].
  simpl in H. apply andb_prop in H as [H Hq]. apply andb_prop in H as [H Hp].
  apply eqb_ascii_eq in Hp, Hq. subst.
  eexists [_; _; _; _; _; _; _; _; _; _; _; _]. split; [reflexivity|].
  split; [exact H | reflexivity].
Qed.

Lemma filter_keep (f : ascii -> bool) a l :
  f a = true -> filter f (a :: l) = a :: filter f l.
Proof. intros H. simpl. now rewrite H. Qed.

Lemma filter_drop (f : ascii -> bool) a l :
  f a = false -> filter f (a :: l) = filter f l.
Proof. intros H. simpl. now rewrite H. Qed.

Lemma dotted_hex_or_sep s :
  length s = 12 -> forallb is_lower_hex s = true ->
  Forall hex_or_sep (dotted s) /\ filter is_hex_ci (dotted s) = s.
Proof.
  intros L H.
  do 12 (destruct s as [|? s]; [discriminate|]).
  destruct s; [|discriminate].
  simpl in H.
  repeat match goal with
         | H : _ && _ = true |- _ => apply andb_prop in H as [? H]
         end.
  repeat match goal with
         | H : is_lower_hex _ = true |- _ => apply lower_hex_is_hex_ci in H
         end.
  split.
  - unfold dotted, slice; simpl.
    repeat (apply Forall_cons;
            [first [left; assumption | right; reflexivity]|]).
    apply Forall_nil.
  - match goal with
    | |- filter _ (dotted ?s) = _ =>
        let d := eval vm_compute in (dotted s) in change (dotted s) with d
    end.
    repeat first [ rewrite filter_keep by assumption
                 | rewrite filter_drop by (vm_compute; reflexivity) ].
    reflexivity.
Qed.

(** A canonical address is a fixed point. *)
Lemma normalize_canonical_fixed m :
  is_canonical_mac m = true -> normalize_mac_to_dots m = Some m.
Proof.
  intros H. destruct (canonical_shape m H) as (s & L & Hs & ->).
  destruct (dotted_hex_or_sep s L Hs) as [F E].
  assert (L' : length (filter is_hex_ci (dotted s)) = 12)
    by (rewrite E; exact L).
  rewrite (normalize_hex_or_sep _ F L'), E.
  f_equal. f_equal.
  clear -Hs. induction s as [|a s IH]; simpl in *; [reflexivity|].
  apply andb_prop in Hs as [Ha Hs].
  now rewrite (lower_hex_fixed a Ha), IH.
Qed.

(** ** The matcher

    *** The matcher is sound *)

Section MatcherSound.

Lemma firstn_matched (w s' : str) :
  firstn (length (w ++ s') - length s') (w ++ s') = w.
Proof.
  rewrite length_app, Nat.add_sub, firstn_app, Nat.sub_diag, firstn_all.
  simpl. apply app_nil_r.
Qed.

(** Whatever the matcher hands to its continuation is the rest of the text
    after a word of the pattern's language. *)
Lemma rmatch_sound r :
  forall s c (k : str -> caps -> option (str * caps)) out,
    rmatch r s c k = Some out ->
    exists w s' c', s = w ++ s' /\ lang r w /\ k s' c' = Some out.
Proof.
  induction r as [|p|r1 IH1 r2 IH2|r1 IH1 r2 IH2|r1 IH1|n r1 IH1];
    intros s c k out H; cbn [rmatch] in H.
  - exists [], s, c. simpl. auto.
  - destruct s as [|a s']; [discriminate|].
    destruct (p a) eqn:E; [|discriminate].
    exists [a], s', c. simpl. eauto.
  - apply IH1 in H as (w1 & s1 & c1 & -> & L1 & H).
    apply IH2 in H as (w2 & s2 & c2 & -> & L2 & H).
    exists (w1 ++ w2), s2, c2. rewrite app_assoc. simpl. eauto 7.
  - destruct (rmatch r1 s c k) eqn:E.
    + injection H as ->. apply IH1 in E as (w & s' & c' & -> & L & E).
      exists w, s', c'. simpl. auto.
    + apply IH2 in H as (w & s' & c' & -> & L & E').
      exists w, s', c'. simpl. auto.
  - remember (S (length s)) as fuel eqn:Ef. clear Ef. revert s c H.
    induction fuel as [|fuel IHf]; intros s c H; simpl in H.
    + exists [], s, c. simpl. split; [reflexivity|]. split; [|exact H].
      exists []. auto.
    + match type of H with
      | match ?m with _ => _ end = _ => destruct m eqn:E
      end.
      * injection H as ->.
        apply IH1 in E as (w1 & s1 & c1 & -> & L1 & E).
        destruct (length s1 <? length (w1 ++ s1)); [|discriminate].
        apply IHf in E as (w2 & s2 & c2 & -> & (ws & -> & Hws) & E).
        exists (w1 ++ concat ws), s2, c2. rewrite app_assoc.
        split; [reflexivity|]. split; [|exact E].
        exists (w1 :: ws). simpl. auto.
      * exists [], s, c. simpl. split; [reflexivity|]. split; [|exact H].
        exists []. auto.
  - apply IH1 in H as (w & s' & c' & -> & L & H).
    rewrite firstn_matched in H.
    exists w, s', ((n, w) :: c'). auto.
Qed.

Lemma search_from_sound r s m :
  search_from r s = Some m ->
  exists pre s1 rest, s = pre ++ s1 /\ rmatch r s1 [] accept = Some (rest, m).
Proof.
  induction s as [|a s IH]; simpl.
  - destruct (rmatch r [] [] accept) as [[rest m']|] eqn:E; [|discriminate].
    intros [= ->]. exists [], [], rest. auto.
  - destruct (rmatch r (a :: s) [] accept) as [[rest m']|] eqn:E.
    + intros [= ->]. exists [], (a :: s), rest. auto.
    + intros H. apply IH in H as (pre & s1 & rest & -> & H).
      exists (a :: pre), s1, rest. auto.
Qed.

(** A successful [re.search] matched, somewhere in the text, a word of the
    language of the pattern, and that word is group 0. *)
Lemma re_search_sound r s m :
  re_search r s = Some m ->
  exists pre w post c,
    s = pre ++ w ++ post /\ lang r w /\ m = (0, w) :: c.
Proof.
  unfold re_search. intros H.
  apply search_from_sound in H as (pre & s1 & rest & -> & H).
  cbn [rmatch] in H.
  apply rmatch_sound in H as (w & s' & c' & -> & L & H).
  rewrite firstn_matched in H. unfold accept in H. injection H as <- <-.
  exists pre, w, s', c'. auto.
Qed.

(** When the whole pattern is a group, that group holds the match too. *)
Lemma re_search_group_sound n r s m :
  re_search (Group n r) s = Some m ->
  exists pre w post c,
    s = pre ++ w ++ post /\ lang r w /\ m = (0, w) :: (n, w) :: c.
Proof.
  unfold re_search. intros H.
  apply search_from_sound in H as (pre & s1 & rest & -> & H).
  cbn [rmatch] in H.
  apply rmatch_sound in H as (w & s' & c' & -> & L & H).
  rewrite !firstn_matched in H. unfold accept in H. injection H as <- <-.
  exists pre, w, s', c'. auto.
Qed.

(** *** The matcher is complete

    The captures play no part in the success of a match, so a continuation
    is asked to succeed on the rest of the text whatever the captures. *)

Lemma star_loop_complete r (k : str -> caps -> option (str * caps)) s' :
  (forall w s1 (k1 : str -> caps -> option (str * caps)),
      lang r w -> (forall c, k1 s1 c <> None) ->
      forall c, rmatch r (w ++ s1) c k1 <> None) ->
  (forall c, k s' c <> None) ->
  forall ws, Forall (lang r) ws ->
  forall fuel c,
    length (concat ws ++ s') < fuel ->
    star_loop (rmatch r) k fuel (concat ws ++ s') c <> None.
Proof.
  intros IHr Hk ws F.
  induction F as [|w1 ws L1 _ IH]; intros fuel c Hf.
  - destruct fuel as [|fuel]; [lia|]. cbn [star_loop concat app].
    destruct (rmatch r s' c _); [discriminate | apply Hk].
  - destruct w1 as [|a w1]; [apply IH; exact Hf|].
    destruct fuel as [|fuel]; [lia|].
    cbn [star_loop concat]. rewrite <- app_assoc.
    match goal with
    | |- match rmatch r ?s c ?k1 with _ => _ end <> None =>
        assert (N : rmatch r s c k1 <> None)
    end.
    { apply IHr; [exact L1|]. intros c1.
      assert (T : (length (concat ws ++ s')
                   <? length ((a :: w1) ++ concat ws ++ s')) = true).
      { apply Nat.ltb_lt. rewrite (length_app (a :: w1)). simpl. lia. }
      rewrite T. apply IH.
      cbn [concat] in Hf. rewrite <- app_assoc, (length_app (a :: w1)) in Hf.
      simpl in Hf. lia. }
    destruct (rmatch r _ c _); [discriminate | congruence].
Qed.

Lemma rmatch_complete r :
  forall w s' (k : str -> caps -> option (str * caps)),
    lang r w -> (forall c, k s' c <> None) ->
    forall c, rmatch r (w ++ s') c k <> None.
Proof.
  induction r as [|p|r1 IH1 r2 IH2|r1 IH1 r2 IH2|r1 IH1|n r1 IH1];
    intros w s' k L Hk c; cbn [rmatch]; cbn [lang] in L.
  - subst w. apply Hk.
  - destruct L as (a & -> & Ha). cbn [app]. rewrite Ha. apply Hk.
  - destruct L as (w1 & w2 & -> & L1 & L2). rewrite <- app_assoc.
    apply IH1; [exact L1|]. intros c1. now apply IH2.
  - destruct L as [L|L].
    + pose proof (IH1 w s' k L Hk c) as N.
      destruct (rmatch r1 (w ++ s') c k); [discriminate | congruence].
    + destruct (rmatch r1 (w ++ s') c k); [discriminate|]. now apply IH2.
  - destruct L as (ws & -> & F).
    apply star_loop_complete; [exact IH1 | exact Hk | exact F | lia].
  - apply IH1; [exact L|]. intros c1. apply Hk.
Qed.

Lemma search_from_complete r w :
  lang r w -> forall pre post, search_from r (pre ++ w ++ post) <> None.
Proof.
  intros L pre post.
  assert (B : forall s, rmatch r s [] accept <> None -> search_from r s <> None).
  { intros s N. destruct s; simpl;
      destruct (rmatch r _ [] accept) as [[? ?]|]; congruence. }
  induction pre as [|a pre IH].
  - apply B. apply (rmatch_complete r w post); [exact L | discriminate].
  - cbn [app search_from].
    destruct (rmatch r (a :: pre ++ w ++ post) [] accept) as [[? ?]|];
      [discriminate | exact IH].
Qed.

(** [re.search] succeeds exactly when some part of the text is in the
    language of the pattern. *)
Lemma matches_iff r s :
  matches r s = true <->
  exists pre w post, s = pre ++ w ++ post /\ lang r w.
Proof.
  unfold matches. split.
  - destruct (re_search r s) as [m|] eqn:E; [|discriminate]. intros _.
    apply re_search_sound in E as (pre & w & post & c & -> & L & _).
    now exists pre, w, post.
  - intros (pre & w & post & -> & L).
    pose proof (search_from_complete (Group 0 r) w L pre post) as N.
    unfold re_search. destruct (search_from (Group 0 r) _); congruence.
Qed.

End MatcherSound.

(** ** The three address patterns *)

Ltac lang_inv H :=
  cbn -[Ascii.eqb] in H;
  repeat match goal with
         | H : exists _, _ |- _ => destruct H
         | H : _ /\ _ |- _ => destruct H
         | H : _ \/ _ |- _ => destruct H
         | H : Ascii.eqb _ _ = true |- _ => apply eqb_ascii_eq in H
         end;
  subst.

Ltac mac_text_tac :=
  split; cbn [app];
  [ repeat (apply Forall_cons;
            [first [left; assumption | right; vm_compute; reflexivity]|]);
    apply Forall_nil
  | repeat first [ rewrite filter_keep by assumption
                 | rewrite filter_drop by (vm_compute; reflexivity) ];
    reflexivity ].

Lemma lang_mac_dotted w :
  lang (Seq (Rep 4 hex) (Seq dot (Seq (Rep 4 hex) (Seq dot (Rep 4 hex))))) w ->
  mac_text w.
Proof. intros H. lang_inv H. mac_text_tac. Qed.

Lemma lang_mac_octets w : lang RE_MAC_OCTETS w -> mac_text w.
Proof. intros H. lang_inv H; mac_text_tac. Qed.

Lemma lang_mac_plain w : lang (Rep 12 hex) w -> mac_text w.
Proof. intros H. lang_inv H. mac_text_tac. Qed.

Lemma normalize_group_mac_text m n w :
  group m n = Some w -> mac_text w ->
  exists x, normalize_group m n = Some x /\ is_canonical_mac x = true.
Proof.
  intros G [F L]. unfold normalize_group. rewrite G.
  now apply normalize_hex_or_sep_canonical.
Qed.

(** On a line where one of the searches matches, the function returns a
    canonical address. *)
Lemma mac_of_arp_line_canonical line r :
  mac_of_arp_line line = Some r ->
  exists x, r = Some x /\ is_canonical_mac x = true.
Proof.
  unfold mac_of_arp_line.
  destruct (re_search RE_MAC_DOTTED line) as [m|] eqn:E1.
  - intros [= <-].
    apply re_search_group_sound in E1 as (pre & w & post & c & _ & L & ->).
    apply (normalize_group_mac_text _ 1 w); [reflexivity|].
    now apply lang_mac_dotted.
  - destruct (re_search RE_MAC_OCTETS line) as [m2|] eqn:E2.
    + intros [= <-].
      apply re_search_sound in E2 as (pre & w & post & c & _ & L & ->).
      apply (normalize_group_mac_text _ 0 w); [reflexivity|].
      now apply lang_mac_octets.
    + destruct (re_search RE_MAC_PLAIN (remove_char " " line)) as [m3|] eqn:E3;
        [|discriminate].
      intros [= <-].
      apply re_search_group_sound in E3 as (pre & w & post & c & _ & L & ->).
      apply (normalize_group_mac_text _ 1 w); [reflexivity|].
      now apply lang_mac_plain.
Qed.

Lemma find_mac_in_lines_canonical lines ip_target m :
  find_mac_in_lines lines ip_target = Some m -> is_canonical_mac m = true.
Proof.
  induction lines as [|line rest IH]; simpl; [discriminate|].
  destruct (contains line ip_target); [|exact IH].
  destruct (mac_of_arp_line line) as [r|] eqn:E; [|exact IH].
  intros ->. apply mac_of_arp_line_canonical in E as (x & [= ->] & C).
  exact C.
Qed.

(** C5, as the program has it: [normalize_mac_to_dots] strips the
    surrounding whitespace, lower-cases and removes the separators [.], [:]
    and [-]; it returns a result exactly when twelve characters remain,
    whatever they are, and the result is these characters in three groups of
    four joined by dots; every other length gives [None]. *)
Theorem normalize_mac_to_dots_by_length (mac_raw : str) :
  (length (mac_digits mac_raw) = 12 /\
   normalize_mac_to_dots mac_raw = Some (dotted (mac_digits mac_raw)) /\
   length (dotted (mac_digits mac_raw)) = 14)
  \/
  (length (mac_digits mac_raw) <> 12 /\ normalize_mac_to_dots mac_raw = None).
Proof.
  unfold normalize_mac_to_dots.
  destruct mac_raw as [|a t].
  - right. split; [discriminate | reflexivity].
  - generalize (mac_digits (a :: t)) as s. intros s.
    destruct (length s =? 12) eqn:E; simpl.
    + apply Nat.eqb_eq in E. left. split; [exact E|]. split; [reflexivity|].
      do 12 (destruct s as [|? s]; [discriminate|]).
      destruct s; [reflexivity | discriminate].
    + apply Nat.eqb_neq in E. right. split; [exact E | reflexivity].
Qed.

(** C5, as the claim states it, fails: twelve characters that are not
    hexadecimal digits are accepted. *)
Lemma normalize_mac_to_dots_accepts_non_hex :
  forallb is_hex_ci (mac_digits (lit "zzzzzzzzzzzz")) = false /\
  normalize_mac_to_dots (lit "zzzzzzzzzzzz") = Some (lit "zzzz.zzzz.zzzz").
Proof. split; vm_compute; reflexivity. Qed.

(** ** find_mac_in_arp *)

Lemma mac_of_arp_line_forms line :
  mac_of_arp_line line =
  if has_mac_form line then Some (normalize_opt (first_mac_form line)) else None.
Proof.
  unfold mac_of_arp_line, has_mac_form, first_mac_form, matches, matched_text,
    normalize_group, normalize_opt.
  destruct (re_search RE_MAC_DOTTED line); [reflexivity|].
  destruct (re_search RE_MAC_OCTETS line); [reflexivity|].
  destruct (re_search RE_MAC_PLAIN (remove_char " " line)); reflexivity.
Qed.

(** C6, as the program has it: the result comes from the first line that
    contains the address and shows a hardware address in one of the three
    forms, and is the normalization of the first form found there, in the
    order dotted, colon or dash separated, contiguous; a line that contains
    the address and shows no hardware address is passed over; the result is
    [None] when no line has both. *)
Theorem find_mac_in_arp_first_line_with_mac (arp_output ip_target : str) :
  find_mac_in_arp arp_output ip_target =
  match find (fun line => contains line ip_target && has_mac_form line)
             (splitlines arp_output) with
  | Some line => normalize_opt (first_mac_form line)
  | None => None
  end.
Proof.
  unfold find_mac_in_arp.
  induction (splitlines arp_output) as [|line rest IH]; simpl; [reflexivity|].
  rewrite mac_of_arp_line_forms.
  destruct (contains line ip_target); simpl; [|exact IH].
  destruct (has_mac_form line); [reflexivity | exact IH].
Qed.

(** C6, as the claim states it, fails: the first line with the address shows
    no hardware address, and the function still answers, from a later
    line. *)
Lemma find_mac_in_arp_passes_over_line :
  (exists line rest,
      filter (fun l => contains l (lit "10.0.0.5")) (splitlines arp_two_entries)
      = line :: rest /\ has_mac_form line = false) /\
  find_mac_in_arp arp_two_entries (lit "10.0.0.5") = Some (lit "aabb.ccdd.eeff").
Proof.
  split; [|vm_compute; reflexivity].
  eexists. eexists. split; [vm_compute; reflexivity | vm_compute; reflexivity].
Qed.

(** ** Substrings and tokens *)

Lemma startswith_app s p :
  startswith s p = true -> exists post, s = p ++ post.
Proof.
  revert s. induction p as [|x p IH]; intros s H.
  - exists s. reflexivity.
  - destruct s as [|y s]; [discriminate|]. simpl in H.
    apply andb_prop in H as [E H]. apply eqb_ascii_eq in E. subst y.
    apply IH in H as [post ->]. exists post. reflexivity.
Qed.

Lemma contains_app s sub :
  contains s sub = true -> exists pre post, s = pre ++ sub ++ post.
Proof.
  induction s as [|a s IH]; cbn [contains]; intros H.
  - rewrite orb_false_r in H. apply startswith_app in H as [post E].
    exists [], post. exact E.
  - apply orb_prop in H as [H|H].
    + apply (startswith_app (a :: s)) in H as [post E]. exists [], post. exact E.
    + apply IH in H as (pre & post & ->). exists (a :: pre), post. reflexivity.
Qed.

Lemma flush_tokens cur rest :
  Forall (fun t : str => t <> []) rest ->
  Forall (fun t : str => t <> []) (flush cur rest).
Proof.
  intros H. destruct cur as [|c cur]; simpl; [exact H|].
  constructor; [|exact H].
  intros E. apply (f_equal (@length ascii)) in E.
  rewrite length_app in E. simpl in E. lia.
Qed.

(** The fields of [split] are not empty. *)
Lemma split_from_tokens s :
  forall cur, Forall (fun t : str => t <> []) (split_from cur s).
Proof.
  induction s as [|c s IH]; intros cur; simpl.
  - apply flush_tokens. constructor.
  - destruct (isspace c); [apply flush_tokens|]; apply IH.
Qed.

Lemma split_from_some s :
  forall cur,
    cur <> [] \/ (exists a, In a s /\ isspace a = false) ->
    split_from cur s <> [].
Proof.
  induction s as [|c s IH]; intros cur H; simpl.
  - destruct H as [H|(a & [] & _)].
    destruct cur; [congruence | discriminate].
  - destruct (isspace c) eqn:E.
    + destruct cur as [|x cur]; simpl; [|discriminate].
      apply IH. right. destruct H as [H|(a & [->|Ha] & Hs)];
        [congruence | congruence | eauto].
    + apply IH. left. discriminate.
Qed.

(** A line that contains [" uptime "] has a first field. *)
Lemma split_uptime_nonempty line :
  contains line (lit " uptime ") = true ->
  exists tok rest, split line = tok :: rest /\ tok <> [].
Proof.
  intros H. apply contains_app in H as (pre & post & ->).
  pose proof (split_from_tokens (pre ++ lit " uptime " ++ post) []) as T.
  pose proof (split_from_some (pre ++ lit " uptime " ++ post) []) as N.
  fold (split (pre ++ lit " uptime " ++ post)) in T, N.
  destruct (split (pre ++ lit " uptime " ++ post)) as [|tok rest].
  - exfalso. apply N; [|reflexivity]. right. exists "u"%char.
    split; [|reflexivity]. apply in_or_app. right. simpl. auto.
  - exists tok, rest. split; [reflexivity|]. now inversion T.
Qed.

Lemma last_tokens (parts : list str) :
  parts <> [] -> Forall (fun t : str => t <> []) parts -> last parts [] <> [].
Proof.
  intros N F. rewrite Forall_forall in F. apply F.
  destruct parts as [|p parts]; [congruence|].
  clear. revert p. induction parts as [|q parts IH]; intros p; simpl.
  - now left.
  - right. apply IH.
Qed.

(** ** get_hostname_from_show_ver *)

(** C7, as the program has it: the lines are read once, in order, and the
    result comes from the first line that either contains [" uptime "], and
    then is its first field, or begins with [hostname] in any letter case
    and has two fields or more, and then is its last field; the result is
    [None] when no line is of either kind. *)
Theorem get_hostname_first_line (show_ver : str) :
  get_hostname_from_show_ver show_ver =
  match find hostname_line (splitlines show_ver) with
  | Some line => hostname_of_line line
  | None => None
  end.
Proof.
  unfold get_hostname_from_show_ver.
  induction (splitlines show_ver) as [|line rest IH];
    cbn [hostname_in_lines find]; [reflexivity|].
  unfold hostname_line at 1.
  destruct (contains line (lit " uptime ")) eqn:U; cbn [orb].
  - unfold hostname_of_line. rewrite U.
    apply split_uptime_nonempty in U as (tok & tl & -> & _). reflexivity.
  - destruct (startswith (lower line) (lit "hostname")); cbn [andb];
      [|exact IH].
    destruct (2 <=? length (split line)); [|exact IH].
    unfold hostname_of_line. now rewrite U.
Qed.

(** C7, as the claim states it, fails: a line with [" uptime "] exists, and
    the answer is taken from the [hostname] line that comes before it. *)
Lemma get_hostname_not_uptime_first :
  existsb (fun line => contains line (lit " uptime "))
          (splitlines show_ver_hostname_first) = true /\
  get_hostname_from_show_ver show_ver_hostname_first = Some (lit "SW9").
Proof. split; vm_compute; reflexivity. Qed.

(** ** find_interface_by_mac *)

Lemma canonical_nonempty m : is_canonical_mac m = true -> m <> [].
Proof. destruct m; [discriminate | discriminate]. Qed.

Lemma find_interface_in_lines_first_row lines mac :
  mac <> [] ->
  find_interface_in_lines lines mac =
  match find (mac_table_row mac) lines with
  | Some line => Some (last (split line) [])
  | None => None
  end.
Proof.
  intros N. destruct mac as [|a mac]; [congruence|].
  induction lines as [|line rest IH];
    cbn [find_interface_in_lines find truthy andb]; [reflexivity|].
  unfold mac_table_row at 1.
  destruct (contains (lower line) (lower (a :: mac))); cbn [andb]; [|exact IH].
  destruct (4 <=? length (split line)); [reflexivity | exact IH].
Qed.

(** C9: for a canonical address, the result is the last field of the first
    line that contains the address, whatever the letter case, and has four
    fields or more; a line with the address and fewer fields is passed
    over; the result is [None] when no line qualifies. *)
Theorem find_interface_by_mac_first_row (mac_table_output mac : str) :
  is_canonical_mac mac = true ->
  find_interface_by_mac mac_table_output mac =
  match find (mac_table_row mac) (splitlines mac_table_output) with
  | Some line => Some (last (split line) [])
  | None => None
  end.
Proof.
  intros C. apply find_interface_in_lines_first_row.
  now apply canonical_nonempty.
Qed.

Lemma find_interface_by_mac_first_row_witness :
  is_canonical_mac (lit "aabb.ccdd.eeff") = true /\
  find_interface_by_mac mac_table_short_row (lit "aabb.ccdd.eeff") =
  match find (mac_table_row (lit "aabb.ccdd.eeff"))
             (splitlines mac_table_short_row) with
  | Some line => Some (last (split line) [])
  | None => None
  end.
Proof.
  split; [reflexivity|].
  apply (find_interface_by_mac_first_row mac_table_short_row
           (lit "aabb.ccdd.eeff")).
  reflexivity.
Defined.

(** The interface that is found is a field of a row, hence not empty. *)
Lemma find_interface_by_mac_nonempty text mac intf :
  find_interface_by_mac text mac = Some intf -> intf <> [].
Proof.
  unfold find_interface_by_mac.
  induction (splitlines text) as [|line rest IH];
    cbn [find_interface_in_lines]; [discriminate|].
  destruct (truthy (Some mac) && contains (lower line) (lower mac));
    [|exact IH].
  destruct (4 <=? length (split line)) eqn:E; [|exact IH].
  intros [= <-]. apply last_tokens; [|apply split_from_tokens].
  apply Nat.leb_le in E. destruct (split line); [simpl in E; lia | discriminate].
Qed.

(** ** parse_cdp_int_detail_for_ip *)

Lemma rmatch_seq_sound r1 r2 s c k out :
  rmatch (Seq r1 r2) s c k = Some out ->
  exists w1 s1 c1, s = w1 ++ s1 /\ lang r1 w1 /\ rmatch r2 s1 c1 k = Some out.
Proof. cbn [rmatch]. apply rmatch_sound. Qed.

Lemma rmatch_group_sound n r s c k out :
  rmatch (Group n r) s c k = Some out ->
  exists w s' c', s = w ++ s' /\ lang r w /\ k s' ((n, w) :: c') = Some out.
Proof.
  cbn [rmatch]. intros H.
  apply rmatch_sound in H as (w & s' & c' & -> & L & H).
  rewrite firstn_matched in H. eauto 7.
Qed.

Lemma lang_plus_chars p w :
  lang (Plus (Chr p)) w -> w <> [] /\ forallb p w = true.
Proof.
  intros (w1 & w2 & -> & (a & -> & Ha) & ws & -> & F). split; [discriminate|].
  simpl. rewrite Ha. simpl.
  induction F as [|x ws (b & -> & Hb) _ IH]; simpl; [reflexivity|].
  now rewrite Hb.
Qed.

(** In a match of [IP address:\s*([\d\.]+)], group 1 took part: it is a
    non-empty run of digits and dots. *)
Lemma re_search_ip_group line m :
  re_search RE_IP_ADDRESS line = Some m ->
  exists g, group m 1 = Some g /\ g <> [] /\ forallb is_dot_or_digit g = true.
Proof.
  unfold re_search. intros H.
  apply search_from_sound in H as (pre & s1 & rest & -> & H).
  cbn [rmatch] in H. fold (rmatch RE_IP_ADDRESS) in H. unfold RE_IP_ADDRESS in H.
  apply rmatch_seq_sound in H as (w1 & s2 & c1 & -> & _ & H).
  apply rmatch_seq_sound in H as (w2 & s3 & c2 & -> & _ & H).
  apply rmatch_group_sound in H as (w & s' & c' & -> & L & H).
  unfold accept in H. injection H as <- <-.
  exists w. split; [reflexivity|]. now apply lang_plus_chars.
Qed.

(** In a match of [Port ID .*:\s*(\S+)], group 1 took part: it is a
    non-empty run of characters that are not whitespace. *)
Lemma re_search_port_group line m :
  re_search RE_PORT_ID line = Some m ->
  exists g, group m 1 = Some g /\ g <> [] /\ forallb non_space g = true.
Proof.
  unfold re_search. intros H.
  apply search_from_sound in H as (pre & s1 & rest & -> & H).
  cbn [rmatch] in H. fold (rmatch RE_PORT_ID) in H. unfold RE_PORT_ID in H.
  apply rmatch_seq_sound in H as (w1 & s2 & c1 & -> & _ & H).
  apply rmatch_seq_sound in H as (w2 & s3 & c2 & -> & _ & H).
  apply rmatch_seq_sound in H as (w3 & s4 & c3 & -> & _ & H).
  apply rmatch_seq_sound in H as (w4 & s5 & c4 & -> & _ & H).
  apply rmatch_group_sound in H as (w & s' & c' & -> & L & H).
  unfold accept in H. injection H as <- <-.
  exists w. split; [reflexivity|]. now apply lang_plus_chars.
Qed.

Lemma cdp_line_eq d i p line0 :
  cdp_line (d, i, p) line0 =
  (or_keep (device_id_of_line (strip line0)) d,
   i ++ filter_map ip_of_line [strip line0],
   or_keep (port_of_line (strip line0)) p).
Proof.
  unfold cdp_line, device_id_of_line, ip_of_line, port_of_line, matched_text.
  cbn [filter_map].
  destruct (startswith (lower (strip line0)) (lit "device id:")); cbn [or_keep].
  - f_equal; [f_equal|].
    + destruct (re_search RE_IP_ADDRESS (strip line0)) as [m|];
        [|now rewrite app_nil_r].
      destruct (group m 1); [reflexivity | now rewrite app_nil_r].
    + destruct (re_search RE_PORT_ID (strip line0)) as [m|] eqn:E;
        [|reflexivity].
      apply re_search_port_group in E as (g & -> & _). reflexivity.
  - f_equal; [f_equal|].
    + destruct (re_search RE_IP_ADDRESS (strip line0)) as [m|];
        [|now rewrite app_nil_r].
      destruct (group m 1); [reflexivity | now rewrite app_nil_r].
    + destruct (re_search RE_PORT_ID (strip line0)) as [m|] eqn:E;
        [|reflexivity].
      apply re_search_port_group in E as (g & -> & _). reflexivity.
Qed.

Lemma last_opt_some {A : Type} (l : list A) :
  forall x, exists z, last_opt (x :: l) = Some z.
Proof.
  unfold last_opt. induction l as [|y l IH]; intros x.
  - exists x. reflexivity.
  - destruct (IH y) as [z E]. exists z. exact E.
Qed.

Lemma last_opt_cons {A : Type} (x : A) (l : list A) :
  last_opt (x :: l) = or_keep (last_opt l) (Some x).
Proof.
  destruct l as [|y l]; [reflexivity|].
  destruct (last_opt_some l y) as [z E].
  rewrite E. cbn [or_keep]. rewrite <- E. reflexivity.
Qed.

Lemma or_keep_last_opt {A B : Type} (f : A -> option B) (x : A) (l : list A)
    (old : option B) :
  or_keep (last_opt (filter_map f l)) (or_keep (f x) old) =
  or_keep (last_opt (filter_map f (x :: l))) old.
Proof.
  cbn [filter_map]. destruct (f x) as [y|]; cbn [or_keep]; [|reflexivity].
  rewrite last_opt_cons. destruct (last_opt (filter_map f l)); reflexivity.
Qed.

(** The loop over the lines computes the last device name, all the
    addresses in order, and the last port. *)
Lemma fold_cdp_line lines :
  forall d i p,
    fold_left cdp_line lines (d, i, p) =
    (or_keep (last_opt (filter_map device_id_of_line (map strip lines))) d,
     i ++ filter_map ip_of_line (map strip lines),
     or_keep (last_opt (filter_map port_of_line (map strip lines))) p).
Proof.
  induction lines as [|line0 rest IH]; intros d i p.
  - cbn. now rewrite app_nil_r.
  - cbn [fold_left map]. rewrite cdp_line_eq, IH.
    rewrite !or_keep_last_opt, <- app_assoc. f_equal. f_equal. f_equal.
    cbn [filter_map]. destruct (ip_of_line (strip line0)); reflexivity.
Qed.

(** C8, as the program has it: without a [Device ID] marker the result is
    [None]; with it, the result is [None] when no line starts with
    [device id:] or when the name on the last such line is empty, whatever
    addresses there are; otherwise the result carries that name, the
    addresses of all the lines that show [IP address:] followed by digits
    and dots, in the order of the lines, and the port of the last line that
    matches [Port ID ...:]. *)
Theorem parse_cdp_int_detail_for_ip_spec (cdp_output : str) :
  parse_cdp_int_detail_for_ip cdp_output =
  if contains cdp_output (lit "Device ID") then
    match last_opt (filter_map device_id_of_line (cdp_lines cdp_output)) with
    | Some (c :: d) =>
        Some {| device_id := c :: d;
                ips := filter_map ip_of_line (cdp_lines cdp_output);
                neighbor_port :=
                  last_opt (filter_map port_of_line (cdp_lines cdp_output)) |}
    | _ => None
    end
  else None.
Proof.
  unfold parse_cdp_int_detail_for_ip, cdp_lines.
  destruct cdp_output as [|a t]; [reflexivity|].
  cbn [truthy negb orb].
  destruct (contains (a :: t) (lit "Device ID")); cbn [negb]; [|reflexivity].
  rewrite fold_cdp_line. cbn [app].
  destruct (last_opt (filter_map device_id_of_line (map strip (splitlines (a :: t)))))
    as [[|c d]|]; cbn [or_keep]; try reflexivity.
  destruct (last_opt (filter_map port_of_line (map strip (splitlines (a :: t)))));
    reflexivity.
Qed.

(** C8, as the claim states it, fails: a device-id line and an address line
    exist, and the result is [None], because the device name is empty. *)
Lemma parse_cdp_empty_device_id :
  filter_map device_id_of_line (cdp_lines cdp_empty_device_id) = [[]] /\
  filter_map ip_of_line (cdp_lines cdp_empty_device_id) = [lit "10.0.0.1"] /\
  parse_cdp_int_detail_for_ip cdp_empty_device_id = None.
Proof. repeat split; vm_compute; reflexivity. Qed.

(** The guard of [line.split(":", 1)[1]]: a line that starts with
    [device id:] has a colon. *)
Lemma startswith_device_id_colon line :
  startswith (lower line) (lit "device id:") = true ->
  exists a b, split_once ":" line = Some (a, b).
Proof.
  intros H.
  assert (I : In ":"%char line).
  { apply startswith_app in H as [post E]. unfold lower in E.
    do 10 (destruct line as [|? line]; [discriminate|]).
    cbn in E. injection E as E1 E2 E3 E4 E5 E6 E7 E8 E9 E10 _.
    assert (a8 = ":"%char) as -> by (clear -E10; by_cases_on_char a8).
    simpl. auto 11. }
  clear H. induction line as [|c line IH]; [destruct I|].
  simpl. destruct (Ascii.eqb c ":") eqn:E; [eauto|].
  destruct I as [->|I]; [now rewrite Ascii.eqb_refl in E|].
  destruct (IH I) as (a & b & ->). eauto.
Qed.

(** ** try_connect: the candidates *)

Lemma str_eqb_eq a b : str_eqb a b = true <-> a = b.
Proof.
  revert b. induction a as [|x a IH]; intros [|y b]; simpl;
    try (split; [discriminate | discriminate]); [tauto|].
  rewrite andb_true_iff, Ascii.eqb_eq, IH. split.
  - intros [-> ->]. reflexivity.
  - intros [= -> ->]. auto.
Qed.

Lemma str_eqb_refl a : str_eqb a a = true.
Proof. now apply str_eqb_eq. Qed.

Lemma pair_in_In x l : pair_in x l = true <-> In x l.
Proof.
  unfold pair_in. rewrite existsb_exists. split.
  - intros ([u p] & I & E). unfold pair_eqb in E.
    apply andb_prop in E as [E1 E2]. apply str_eqb_eq in E1, E2.
    destruct x. simpl in *. now subst.
  - intros I. exists x. split; [exact I|]. unfold pair_eqb.
    apply andb_true_iff. split; now apply str_eqb_eq.
Qed.

Section Candidates.

Variables users passwords : list str.

Lemma add_new_NoDup c x : NoDup c -> NoDup (add_new c x).
Proof.
  intros H. unfold add_new. destruct (pair_in x c) eqn:E; simpl; [exact H|].
  apply NoDup_app; [exact H | repeat constructor; intros [] |].
  intros a Ia [<-|[]]. apply pair_in_In in Ia. congruence.
Qed.

Lemma add_new_length c x : length (add_new c x) <= S (length c).
Proof.
  unfold add_new. destruct (negb (pair_in x c)); [|lia].
  rewrite length_app. simpl. lia.
Qed.

Lemma inner_loop u ps :
  forall c,
    let c' := fold_left
                (fun combos p =>
                   if negb (pair_in (u, p) combos) then combos ++ [(u, p)]
                   else combos) ps c in
    (NoDup c -> NoDup c') /\ length c' <= length c + length ps.
Proof.
  induction ps as [|p ps IH]; intros c; simpl.
  - split; [auto | lia].
  - specialize (IH (add_new c (u, p))). unfold add_new in IH at 1 2.
    destruct IH as [IH1 IH2]. split.
    + intros H. apply IH1. now apply add_new_NoDup.
    + etransitivity; [exact IH2|]. pose proof (add_new_length c (u, p)). lia.
Qed.

Lemma add_cross_loop us :
  forall c,
    (NoDup c -> NoDup (add_cross us passwords c)) /\
    length (add_cross us passwords c) <= length c + length us * length passwords.
Proof.
  unfold add_cross.
  induction us as [|u us IH]; intros c; simpl.
  - split; [auto | lia].
  - destruct (inner_loop u passwords c) as [I1 I2].
    match goal with
    | |- context [fold_left _ us ?c1] => destruct (IH c1) as [IH1 IH2]
    end.
    split; [auto | lia].
Qed.

Lemma filter_NoDup (f : str -> bool) l : NoDup l -> NoDup (filter f l).
Proof.
  induction 1 as [|x l N _ IH]; simpl; [constructor|].
  destruct (f x); [|exact IH].
  constructor; [|exact IH]. rewrite filter_In. tauto.
Qed.

Lemma map_NoDup {A B : Type} (f : A -> B) l :
  (forall x y, f x = f y -> x = y) -> NoDup l -> NoDup (map f l).
Proof.
  intros Inj. induction 1 as [|x l N _ IH]; simpl; constructor; [|exact IH].
  rewrite in_map_iff. intros (y & E & I). apply Inj in E. now subst.
Qed.

Lemma combos_of_NoDup user_given pass_given :
  NoDup users -> NoDup passwords ->
  NoDup (combos_of users passwords user_given pass_given).
Proof.
  intros NU NP. unfold combos_of. apply add_cross_loop.
  rewrite <- app_assoc. simpl. constructor.
  - rewrite in_app_iff, !in_map_iff.
    intros [(p & [= E] & I)|(u & [= E] & I)];
      apply filter_In in I as [_ I]; subst;
      rewrite str_eqb_refl in I; discriminate.
  - apply NoDup_app.
    + apply map_NoDup; [|now apply filter_NoDup].
      intros p q [= ->]. reflexivity.
    + apply map_NoDup; [|now apply filter_NoDup].
      intros u v [= ->]. reflexivity.
    + intros x I1 I2. apply in_map_iff in I1 as (p & <- & I1).
      apply in_map_iff in I2 as (u & [= -> ->] & I2).
      apply filter_In in I2 as [_ I2].
      rewrite str_eqb_refl in I2. discriminate.
Qed.

Lemma combos_of_length user_given pass_given :
  length (combos_of users passwords user_given pass_given)
  <= length users * length passwords + length users + length passwords + 1.
Proof.
  unfold combos_of.
  match goal with
  | |- length (add_cross _ _ ?c) <= _ =>
      destruct (add_cross_loop users c) as [_ L];
      assert (length c <= 1 + length passwords + length users)
  end.
  - rewrite !length_app, !length_map. simpl.
    pose proof (filter_length_le (fun p => negb (str_eqb p pass_given)) passwords).
    pose proof (filter_length_le (fun u => negb (str_eqb u user_given)) users).
    lia.
  - lia.
Qed.

End Candidates.

Lemma COMMON_USERNAMES_NoDup : NoDup COMMON_USERNAMES.
Proof.
  unfold COMMON_USERNAMES.
  repeat (constructor; [vm_compute; intuition discriminate|]). constructor.
Qed.

Lemma COMMON_PASSWORDS_NoDup : NoDup COMMON_PASSWORDS.
Proof.
  unfold COMMON_PASSWORDS.
  repeat (constructor; [vm_compute; intuition discriminate|]). constructor.
Qed.

(** ** try_connect: the attempts *)

Section Attempts.

Variable conn : Type.
Variable ConnectHandler : netmiko_device -> option conn.

(** The attempts follow the candidate list, in order, up to the first one
    that succeeds; no exception leaves the loop. *)
Lemma try_combos_dialed host timeout cs :
  exists n r,
    dialed (fst (try_combos ConnectHandler host timeout cs)) = firstn n cs /\
    snd (try_combos ConnectHandler host timeout cs) = Ok r.
Proof.
  induction cs as [|[user pwd] cs (n & r & IH1 & IH2)].
  - exists 0, None. split; reflexivity.
  - cbn [try_combos bind tell].
    destruct (ConnectHandler _) as [c|].
    + exists 1, (Some (c, (user, pwd))). split; reflexivity.
    + destruct (try_combos ConnectHandler host timeout cs) as [l o].
      simpl in IH1, IH2. subst o.
      exists (S n), r. cbn [fst snd app]. split; [|reflexivity].
      change (dialed (Dial _ :: l)) with ((user, pwd) :: dialed l).
      now rewrite IH1.
Qed.

Lemma firstn_NoDup {A : Type} (l : list A) :
  NoDup l -> forall n, NoDup (firstn n l).
Proof.
  induction 1 as [|x l N _ IH]; intros [|n]; simpl; try constructor.
  - intros I. apply N. rewrite <- (firstn_skipn n l).
    apply in_or_app. now left.
  - apply IH.
Qed.

(** C4, as the program has it: the candidate list has no repeated pair; it
    holds the given pair, the given user with every fallback password, every
    fallback user with the given password, and the N*M fallback pairs, hence
    at most N*M + N + M + 1 pairs; the attempts are a prefix of this list, so
    that no pair is tried twice and at most N*M + N + M + 1 pairs are
    tried. *)
Theorem try_connect_candidates (host user_given pass_given : str) (timeout : nat) :
  let N := length COMMON_USERNAMES in
  let M := length COMMON_PASSWORDS in
  let tried :=
    dialed (fst (try_connect ConnectHandler host user_given pass_given timeout)) in
  NoDup (combos user_given pass_given) /\
  length (combos user_given pass_given) <= N * M + N + M + 1 /\
  (exists n, tried = firstn n (combos user_given pass_given)) /\
  NoDup tried /\
  length tried <= N * M + N + M + 1.
Proof.
  intros N M tried.
  assert (D : NoDup (combos user_given pass_given)).
  { apply combos_of_NoDup;
      [apply COMMON_USERNAMES_NoDup | apply COMMON_PASSWORDS_NoDup]. }
  assert (L : length (combos user_given pass_given) <= N * M + N + M + 1)
    by apply combos_of_length.
  destruct (try_combos_dialed host timeout (combos user_given pass_given))
    as (n & r & E & _).
  assert (E' : tried = firstn n (combos user_given pass_given)) by exact E.
  clearbody tried. clear E.
  repeat split; [exact D | exact L | now exists n | |].
  - rewrite E'. now apply firstn_NoDup.
  - rewrite E', length_firstn. lia.
Qed.

End Attempts.

(** C4, as the claim states it, fails: with a user and a password that are
    in neither fallback list, and devices that refuse them all, twenty
    pairs are tried, and N*M + 2 is fourteen. *)
Lemma try_connect_tries_twenty :
  length (dialed (fst (try_connect Lab.refuse Lab.sw1 (lit "root") (lit "toor") 7)))
  = 20 /\
  length COMMON_USERNAMES * length COMMON_PASSWORDS + 2 = 14.
Proof. split; vm_compute; reflexivity. Qed.

(** ** rastrear_ip_hasta_host *)

Section Walk.

Variable conn : Type.
Variable ConnectHandler : netmiko_device -> option conn.
Variable send_command : conn -> str -> option str.
Variables user pwd ip_objetivo : str.

Lemma find_mac_in_arp_canonical arp_output ip_target m :
  find_mac_in_arp arp_output ip_target = Some m -> is_canonical_mac m = true.
Proof. apply find_mac_in_lines_canonical. Qed.

(** A hop that gets through its lookups sends the neighbor detail command,
    releases the session and then decides. *)
Lemma hop_discovers current_host c show_ver mac_found intf cdp_out :
  discovers ConnectHandler send_command user pwd ip_objetivo
            current_host c show_ver mac_found intf cdp_out ->
  let found := {| ip := ip_objetivo;
                  device := hostname_or show_ver current_host;
                  interface := intf; mac := mac_found |} in
  exists pre,
    hop ConnectHandler send_command user pwd ip_objetivo current_host =
    (pre ++ [Send c (CMD_CDP_INT_FMT intf); Disconnect c]
         ++ fst (decide found (parse_cdp_int_detail_for_ip cdp_out)),
     Ok (snd (decide (conn := conn) found
                     (parse_cdp_int_detail_for_ip cdp_out)))).
Proof.
  intros [creds arp_out mac_table_out Hc Hv Ha Hm Ht Hi Hn] found.
  pose proof (canonical_nonempty _ (find_mac_in_arp_canonical _ _ _ Hm)) as Nm.
  pose proof (find_interface_by_mac_nonempty _ _ _ Hi) as Ni.
  destruct mac_found as [|m0 mac_found]; [congruence|].
  destruct intf as [|i0 intf]; [congruence|].
  unfold hop.
  destruct (try_connect ConnectHandler current_host user pwd 7) as [l0 r0].
  simpl in Hc. subst r0.
  unfold mac_table_of in Ht.
  destruct (send_command c CMD_MAC) as [out|] eqn:Hmac; [|discriminate].
  cbn [bind]. unfold send at 1. rewrite Hv. cbn [bind].
  unfold send at 1. rewrite Ha. cbn [bind]. rewrite Hm.
  cbn [bind]. unfold send at 1. rewrite Hmac. cbn [bind].
  fold (hostname_or show_ver current_host). fold found.
  destruct (negb (truthy (Some out)) || contains out (lit "Invalid input")).
  - exists (l0 ++ [Send c CMD_VER; Send c CMD_ARP; Send c CMD_MAC;
                   Send c CMD_MAC_ALT]).
    unfold send at 1. rewrite Ht. cbn [bind]. rewrite Hi.
    unfold send at 1. rewrite Hn. cbn [bind tell].
    rewrite <- app_assoc. unfold decide.
    destruct (parse_cdp_int_detail_for_ip cdp_out) as [info|];
      [destruct (ips info)|]; reflexivity.
  - injection Ht as ->.
    exists (l0 ++ [Send c CMD_VER; Send c CMD_ARP; Send c CMD_MAC]).
    cbn [bind ret]. rewrite Hi.
    unfold send at 1. rewrite Hn. cbn [bind tell].
    rewrite <- app_assoc. unfold decide.
    destruct (parse_cdp_int_detail_for_ip cdp_out) as [info|];
      [destruct (ips info)|]; reflexivity.
Qed.

Lemma hop_fails_returns current_host :
  hop_fails ConnectHandler send_command user pwd ip_objetivo current_host ->
  snd (hop ConnectHandler send_command user pwd ip_objetivo current_host)
  = Ok (Return None).
Proof.
  intros [Hc | c creds show_ver arp_out Hc Hv Ha Hm
             | c creds show_ver arp_out mac_found mac_table_out Hc Hv Ha Hm Ht Hi];
    unfold hop;
    destruct (try_connect ConnectHandler current_host user pwd 7) as [l0 r0];
    simpl in Hc; subst r0; cbn [bind].
  - reflexivity.
  - unfold send at 1. rewrite Hv. cbn [bind].
    unfold send at 1. rewrite Ha. cbn [bind]. rewrite Hm. reflexivity.
  - pose proof (canonical_nonempty _ (find_mac_in_arp_canonical _ _ _ Hm)) as Nm.
    destruct mac_found as [|m0 mac_found]; [congruence|].
    unfold mac_table_of in Ht.
    destruct (send_command c CMD_MAC) as [out|] eqn:Hmac; [|discriminate].
    unfold send at 1. rewrite Hv. cbn [bind].
    unfold send at 1. rewrite Ha. cbn [bind]. rewrite Hm.
    cbn [bind]. unfold send at 1. rewrite Hmac. cbn [bind].
    destruct (negb (truthy (Some out)) || contains out (lit "Invalid input")).
    + unfold send at 1. rewrite Ht. cbn [bind]. rewrite Hi. reflexivity.
    + injection Ht as ->. cbn [bind ret]. rewrite Hi. reflexivity.
Qed.

(** A result comes with the address that [find_mac_in_arp] resolved. *)
Lemma hop_result_mac current_host l r :
  hop ConnectHandler send_command user pwd ip_objetivo current_host
  = (l, Ok (Return (Some r))) ->
  exists arp_out, find_mac_in_arp arp_out ip_objetivo = Some (mac r).
Proof.
  unfold hop.
  destruct (try_connect ConnectHandler current_host user pwd 7)
    as [l0 [[[c creds]|]|]]; cbn [bind]; try discriminate.
  unfold send.
  destruct (send_command c CMD_VER) as [show_ver|]; cbn [bind];
    [|discriminate].
  destruct (send_command c CMD_ARP) as [arp_out|]; cbn [bind];
    [|discriminate].
  destruct (find_mac_in_arp arp_out ip_objetivo) as [[|m0 mac_found]|] eqn:Hm;
    try discriminate.
  destruct (send_command c CMD_MAC) as [out|]; cbn [bind]; [|discriminate].
  intros H. exists arp_out. rewrite Hm. f_equal.
  destruct (negb (truthy (Some out)) || contains out (lit "Invalid input")).
  - destruct (send_command c CMD_MAC_ALT) as [alt|]; cbn [bind] in H;
      [|discriminate].
    destruct (find_interface_by_mac alt (m0 :: mac_found)) as [[|i0 intf]|];
      try discriminate.
    destruct (send_command c (CMD_CDP_INT_FMT (i0 :: intf))) as [cdp_out|];
      cbn [bind tell] in H; [|discriminate].
    destruct (parse_cdp_int_detail_for_ip cdp_out) as [info|];
      [destruct (ips info)|]; cbn in H; inversion H; reflexivity.
  - cbn [bind ret] in H.
    destruct (find_interface_by_mac out (m0 :: mac_found)) as [[|i0 intf]|];
      try discriminate.
    destruct (send_command c (CMD_CDP_INT_FMT (i0 :: intf))) as [cdp_out|];
      cbn [bind tell] in H; [|discriminate].
    destruct (parse_cdp_int_detail_for_ip cdp_out) as [info|];
      [destruct (ips info)|]; cbn in H; inversion H; reflexivity.
Qed.

(** *** The loop *)

Lemma rastrear_loop_S fuel visited current_host :
  rastrear_loop ConnectHandler send_command (S fuel) user pwd ip_objetivo
                visited current_host =
  match hop ConnectHandler send_command user pwd ip_objetivo current_host with
  | (l, Raise) => (l, Some Raise)
  | (l, Ok (Return r)) => (l, Some (Ok r))
  | (l, Ok (Next next_host)) =>
      let (l', o) :=
        rastrear_loop ConnectHandler send_command fuel user pwd ip_objetivo
                      visited next_host in
      (l ++ l', o)
  end.
Proof. reflexivity. Qed.

Lemma rastrear_loop_return fuel visited current_host l r :
  hop ConnectHandler send_command user pwd ip_objetivo current_host
  = (l, Ok (Return r)) ->
  rastrear_loop ConnectHandler send_command (S fuel) user pwd ip_objetivo
                visited current_host = (l, Some (Ok r)).
Proof. intros H. rewrite rastrear_loop_S. now rewrite H. Qed.

Lemma rastrear_loop_next fuel visited current_host l next_host :
  hop ConnectHandler send_command user pwd ip_objetivo current_host
  = (l, Ok (Next next_host)) ->
  rastrear_loop ConnectHandler send_command (S fuel) user pwd ip_objetivo
                visited current_host =
  (let (l', o) := rastrear_loop ConnectHandler send_command fuel user pwd
                                ip_objetivo visited next_host in
   (l ++ l', o)).
Proof. intros H. rewrite rastrear_loop_S. now rewrite H. Qed.

Lemma reaches_loop n start h :
  reaches ConnectHandler send_command user pwd ip_objetivo n start h ->
  forall fuel visited,
    snd (rastrear_loop ConnectHandler send_command (n + fuel) user pwd
                       ip_objetivo visited start) =
    snd (rastrear_loop ConnectHandler send_command fuel user pwd
                       ip_objetivo visited h).
Proof.
  induction 1 as [h|n h next_host h' l Hh _ IH]; intros fuel visited.
  - reflexivity.
  - cbn [Nat.add]. rewrite (rastrear_loop_next _ _ _ _ _ Hh).
    rewrite <- IH.
    destruct (rastrear_loop ConnectHandler send_command (n + fuel) user pwd
                            ip_objetivo visited next_host).
    reflexivity.
Qed.

(** More fuel does not change an outcome: a trace has one outcome. *)
Lemma rastrear_loop_more fuel :
  forall visited current_host o,
    snd (rastrear_loop ConnectHandler send_command fuel user pwd ip_objetivo
                       visited current_host) = Some o ->
    forall extra,
      rastrear_loop ConnectHandler send_command (fuel + extra) user pwd
                    ip_objetivo visited current_host =
      rastrear_loop ConnectHandler send_command fuel user pwd ip_objetivo
                    visited current_host.
Proof.
  induction fuel as [|fuel IH]; intros visited current_host o H extra.
  - discriminate.
  - rewrite Nat.add_succ_l, !rastrear_loop_S. rewrite rastrear_loop_S in H.
    destruct (hop ConnectHandler send_command user pwd ip_objetivo current_host)
      as [l [[r|next_host]|]]; try reflexivity.
    specialize (IH visited next_host o).
    destruct (rastrear_loop ConnectHandler send_command fuel user pwd
                            ip_objetivo visited next_host) as [l' o'] eqn:E.
    cbn [snd] in H, IH. rewrite (IH H extra). reflexivity.
Qed.

Lemma rastrear_loop_outcome_unique fuel1 fuel2 visited current_host o1 o2 :
  snd (rastrear_loop ConnectHandler send_command fuel1 user pwd ip_objetivo
                     visited current_host) = Some o1 ->
  snd (rastrear_loop ConnectHandler send_command fuel2 user pwd ip_objetivo
                     visited current_host) = Some o2 ->
  o1 = o2.
Proof.
  intros H1 H2.
  pose proof (rastrear_loop_more _ _ _ _ H1 fuel2) as E1.
  pose proof (rastrear_loop_more _ _ _ _ H2 fuel1) as E2.
  rewrite Nat.add_comm in E2. rewrite E1 in E2. rewrite E2 in H1. congruence.
Qed.

(** The set created before the loop stays as it is: the loop does not
    depend on it. *)
Lemma rastrear_loop_ignores_visited fuel :
  forall visited visited' current_host,
    rastrear_loop ConnectHandler send_command fuel user pwd ip_objetivo
                  visited current_host =
    rastrear_loop ConnectHandler send_command fuel user pwd ip_objetivo
                  visited' current_host.
Proof.
  induction fuel as [|fuel IH]; intros visited visited' current_host;
    [reflexivity|].
  rewrite !rastrear_loop_S.
  destruct (hop ConnectHandler send_command user pwd ip_objetivo current_host)
    as [l [[r|next_host]|]]; try reflexivity.
  now rewrite (IH visited visited').
Qed.

(** Two hosts that name each other keep the loop running. *)
Lemma rastrear_loop_two_cycle a b :
  snd (hop ConnectHandler send_command user pwd ip_objetivo a) = Ok (Next b) ->
  snd (hop ConnectHandler send_command user pwd ip_objetivo b) = Ok (Next a) ->
  forall fuel visited,
    snd (rastrear_loop ConnectHandler send_command fuel user pwd ip_objetivo
                       visited a) = None /\
    snd (rastrear_loop ConnectHandler send_command fuel user pwd ip_objetivo
                       visited b) = None.
Proof.
  intros Ha Hb fuel visited.
  induction fuel as [|fuel [IHa IHb]]; [split; reflexivity|].
  rewrite !rastrear_loop_S.
  destruct (hop ConnectHandler send_command user pwd ip_objetivo a) as [la ra].
  destruct (hop ConnectHandler send_command user pwd ip_objetivo b) as [lb rb].
  cbn [snd] in Ha, Hb. subst ra rb.
  destruct (rastrear_loop ConnectHandler send_command fuel user pwd
                          ip_objetivo visited a).
  destruct (rastrear_loop ConnectHandler send_command fuel user pwd
                          ip_objetivo visited b).
  cbn [snd] in *. split; assumption.
Qed.

(** *** Hops and traces *)

(** C2: a hop that got through its lookups releases the session after the
    neighbor detail command and then decides.  When the neighbor parse gave
    nothing, or a neighbor without addresses, the hop is terminal: the walk
    returns the target address, the display name, the interface and the
    hardware address of this hop, and stops.  Otherwise the loop goes on,
    after a pause, with the first neighbor address as the current host. *)
Theorem hop_terminal_or_transit
    (current_host : str) (c : conn) (show_ver mac_found intf cdp_out : str) :
  discovers ConnectHandler send_command user pwd ip_objetivo
            current_host c show_ver mac_found intf cdp_out ->
  let found := {| ip := ip_objetivo;
                  device := hostname_or show_ver current_host;
                  interface := intf; mac := mac_found |} in
  let vecino_info := parse_cdp_int_detail_for_ip cdp_out in
  exists pre,
    let released := pre ++ [Send c (CMD_CDP_INT_FMT intf); Disconnect c] in
    ((vecino_info = None \/
      (exists info, vecino_info = Some info /\ ips info = [])) /\
     hop ConnectHandler send_command user pwd ip_objetivo current_host
     = (released, Ok (Return (Some found))) /\
     forall fuel visited,
       rastrear_loop ConnectHandler send_command (S fuel) user pwd ip_objetivo
                     visited current_host
       = (released, Some (Ok (Some found))))
    \/
    (exists info next_host rest,
        vecino_info = Some info /\ ips info = next_host :: rest /\
        hop ConnectHandler send_command user pwd ip_objetivo current_host
        = (released ++ [Sleep 1], Ok (Next next_host)) /\
        forall fuel visited,
          rastrear_loop ConnectHandler send_command (S fuel) user pwd
                        ip_objetivo visited current_host
          = (let (l, o) :=
               rastrear_loop ConnectHandler send_command fuel user pwd
                             ip_objetivo visited next_host in
             ((released ++ [Sleep 1]) ++ l, o))).
Proof.
  intros D found vecino_info.
  destruct (hop_discovers _ _ _ _ _ _ D) as [pre H].
  fold found vecino_info in H. exists pre. intros released.
  unfold decide in H.
  destruct vecino_info as [info|] eqn:V;
    [destruct (ips info) as [|next_host rest] eqn:I|].
  - left. cbn [fst snd] in H. rewrite app_nil_r in H.
    split; [right; now exists info|]. split; [exact H|].
    intros fuel visited. now apply rastrear_loop_return.
  - right. exists info, next_host, rest.
    cbn [fst snd] in H. rewrite app_assoc in H.
    split; [reflexivity|]. split; [exact I|]. split; [exact H|].
    intros fuel visited. now apply rastrear_loop_next.
  - left. cbn [fst snd] in H. rewrite app_nil_r in H.
    split; [now left|]. split; [exact H|].
    intros fuel visited. now apply rastrear_loop_return.
Qed.

(** C10: an address that [find_mac_in_arp] returns is canonical and is a
    fixed point of [normalize_mac_to_dots]; so is the hardware address of
    every result of the walk. *)
Theorem find_mac_in_arp_result_canonical :
  (forall arp_output ip_target m,
      find_mac_in_arp arp_output ip_target = Some m ->
      is_canonical_mac m = true /\ normalize_mac_to_dots m = Some m)
  /\
  (forall fuel start_switch l r,
      rastrear_ip_hasta_host ConnectHandler send_command fuel
        start_switch user pwd ip_objetivo = (l, Some (Ok (Some r))) ->
      is_canonical_mac (mac r) = true /\
      normalize_mac_to_dots (mac r) = Some (mac r)).
Proof.
  assert (A : forall arp_output ip_target m,
             find_mac_in_arp arp_output ip_target = Some m ->
             is_canonical_mac m = true /\ normalize_mac_to_dots m = Some m).
  { intros arp_output ip_target m H.
    apply find_mac_in_arp_canonical in H.
    split; [exact H | now apply normalize_canonical_fixed]. }
  split; [exact A|].
  unfold rastrear_ip_hasta_host. generalize (@nil str) as visited.
  intros visited fuel. revert visited.
  induction fuel as [|fuel IH]; intros visited start_switch l r H;
    [discriminate|].
  rewrite rastrear_loop_S in H.
  destruct (hop ConnectHandler send_command user pwd ip_objetivo start_switch)
    as [l0 [[r0|next_host]|]] eqn:Hh.
  - injection H as <- ->.
    apply hop_result_mac in Hh as [arp_out Hm]. now apply A in Hm.
  - destruct (rastrear_loop ConnectHandler send_command fuel user pwd
                            ip_objetivo visited next_host) as [l' o] eqn:E.
    injection H as <- ->. now apply IH in E.
  - discriminate.
Qed.

End Walk.

(** ** On the small network *)

Lemma lab_chain_sw1 :
  discovers Lab.connect Lab.chain (lit "admin") (lit "cisco123") Lab.target
            Lab.sw1 Lab.sw1 (lit "SW1 uptime is 5 days")
            (lit "aabb.ccdd.eeff") (lit "Gi1/0/1")
            (Lab.cdp_to (lit "SW2") Lab.sw2).
Proof.
  apply Discovers with (creds := (lit "admin", lit "cisco123"))
                       (arp_out := Lab.arp_table)
                       (mac_table_out := Lab.mac_table);
    vm_compute; reflexivity.
Defined.

Lemma lab_chain_sw2 :
  discovers Lab.connect Lab.chain (lit "admin") (lit "cisco123") Lab.target
            Lab.sw2 Lab.sw2 (lit "Cisco IOS Software")
            (lit "aabb.ccdd.eeff") (lit "Gi1/0/1") [].
Proof.
  apply Discovers with (creds := (lit "admin", lit "cisco123"))
                       (arp_out := Lab.arp_table)
                       (mac_table_out := Lab.mac_table);
    vm_compute; reflexivity.
Defined.

Lemma lab_chain_reaches_sw2 (answers : str -> str -> option str) :
  snd (hop Lab.connect answers (lit "admin") (lit "cisco123") Lab.target
           Lab.sw1) = Ok (Next Lab.sw2) ->
  reaches Lab.connect answers (lit "admin") (lit "cisco123") Lab.target
          1 Lab.sw1 Lab.sw2.
Proof.
  intros H.
  destruct (hop Lab.connect answers (lit "admin") (lit "cisco123") Lab.target
                Lab.sw1) as [l r] eqn:E.
  simpl in H. subst r.
  apply Reaches_next with (next_host := Lab.sw2) (l := l);
    [exact E | apply Reaches_here].
Defined.

Lemma hop_terminal_or_transit_witness :
  discovers Lab.connect Lab.chain (lit "admin") (lit "cisco123") Lab.target
            Lab.sw1 Lab.sw1 (lit "SW1 uptime is 5 days")
            (lit "aabb.ccdd.eeff") (lit "Gi1/0/1")
            (Lab.cdp_to (lit "SW2") Lab.sw2) /\
  exists pre,
    hop Lab.connect Lab.chain (lit "admin") (lit "cisco123") Lab.target Lab.sw1
    = ((pre ++ [Send Lab.sw1 (CMD_CDP_INT_FMT (lit "Gi1/0/1"));
                Disconnect Lab.sw1]) ++ [Sleep 1],
       Ok (Next Lab.sw2)).
Proof.
  split; [exact lab_chain_sw1|].
  destruct (hop_terminal_or_transit _ Lab.connect Lab.chain (lit "admin")
              (lit "cisco123") Lab.target Lab.sw1 Lab.sw1
              (lit "SW1 uptime is 5 days") (lit "aabb.ccdd.eeff")
              (lit "Gi1/0/1") (Lab.cdp_to (lit "SW2") Lab.sw2) lab_chain_sw1)
    as [pre [([V|(info & V & I)] & _)|(info & next_host & rest & V & I & H & _)]].
  - vm_compute in V. discriminate.
  - vm_compute in V. injection V as <-. vm_compute in I. discriminate.
  - exists pre. vm_compute in V. injection V as <-.
    vm_compute in I. injection I as <- _. exact H.
Defined.

Lemma find_mac_in_arp_result_canonical_witness :
  find_mac_in_arp Lab.arp_table Lab.target = Some (lit "aabb.ccdd.eeff") /\
  is_canonical_mac (lit "aabb.ccdd.eeff") = true /\
  normalize_mac_to_dots (lit "aabb.ccdd.eeff") = Some (lit "aabb.ccdd.eeff") /\
  exists l r,
    rastrear_ip_hasta_host Lab.connect Lab.chain 2 Lab.sw1
      (lit "admin") (lit "cisco123") Lab.target = (l, Some (Ok (Some r))) /\
    is_canonical_mac (mac r) = true.
Proof.
  assert (H : find_mac_in_arp Lab.arp_table Lab.target
              = Some (lit "aabb.ccdd.eeff")) by (vm_compute; reflexivity).
  split; [exact H|].
  destruct (find_mac_in_arp_result_canonical _ Lab.connect Lab.chain
              (lit "admin") (lit "cisco123") Lab.target) as [A B].
  destruct (A _ _ _ H) as [C F]. split; [exact C|]. split; [exact F|].
  destruct (rastrear_ip_hasta_host Lab.connect Lab.chain 2 Lab.sw1
              (lit "admin") (lit "cisco123") Lab.target)
    as [l [[[r|]|]|]] eqn:E; try (vm_compute in E; discriminate).
  exists l, r. split; [reflexivity|]. exact (proj1 (B _ _ _ _ E)).
Defined.

(** C1 does not hold of the program: on two switches that name each other
    as neighbors the loop is still running after any number of passes, and
    the first switch is dialed again on the third pass.  The set of visited
    hosts is created and never used. *)
Theorem rastrear_cycle_never_returns :
  (forall fuel,
      snd (rastrear_ip_hasta_host Lab.connect Lab.cycle fuel Lab.sw1
             (lit "admin") (lit "cisco123") Lab.target) = None) /\
  dialed_hosts (fst (rastrear_ip_hasta_host Lab.connect Lab.cycle 3 Lab.sw1
                       (lit "admin") (lit "cisco123") Lab.target))
  = [Lab.sw1; Lab.sw2; Lab.sw1].
Proof.
  split; [|vm_compute; reflexivity].
  intros fuel. unfold rastrear_ip_hasta_host.
  apply (rastrear_loop_two_cycle _ Lab.connect Lab.cycle (lit "admin")
           (lit "cisco123") Lab.target Lab.sw1 Lab.sw2);
    vm_compute; reflexivity.
Qed.

(** ** The examples of the specification *)

Example normalize_mac_formats :
  normalize_mac_to_dots (lit "AA:BB:CC:DD:EE:FF") = Some (lit "aabb.ccdd.eeff") /\
  normalize_mac_to_dots (lit "aabb.ccdd.eeff") = Some (lit "aabb.ccdd.eeff") /\
  normalize_mac_to_dots (lit "aabbccddeeff") = Some (lit "aabb.ccdd.eeff") /\
  normalize_mac_to_dots (lit " AA-BB-CC-DD-EE-FF ") = Some (lit "aabb.ccdd.eeff") /\
  normalize_mac_to_dots (lit "aabb.ccdd.eef") = None.
Proof. repeat split; vm_compute; reflexivity. Qed.

Example find_mac_in_arp_entry :
  find_mac_in_arp Lab.arp_table (lit "10.0.0.5") = Some (lit "aabb.ccdd.eeff") /\
  find_mac_in_arp Lab.arp_table (lit "10.0.0.6") = None /\
  find_mac_in_arp (lit "10.0.0.5 at AA:BB:CC:DD:EE:0F on eth0") (lit "10.0.0.5")
  = Some (lit "aabb.ccdd.ee0f") /\
  find_mac_in_arp (lit "10.0.0.5 - AABB CCDD EE0F") (lit "10.0.0.5")
  = Some (lit "aabb.ccdd.ee0f").
Proof. repeat split; vm_compute; reflexivity. Qed.

Example find_interface_by_mac_row :
  find_interface_by_mac Lab.mac_table (lit "aabb.ccdd.eeff")
  = Some (lit "Gi1/0/1") /\
  find_interface_by_mac (lit "aabb.ccdd.eeff  DYNAMIC  Gi9/9")
                        (lit "aabb.ccdd.eeff") = None /\
  find_interface_by_mac mac_table_short_row (lit "aabb.ccdd.eeff")
  = Some (lit "Gi1/0/1").
Proof. repeat split; vm_compute; reflexivity. Qed.

Example parse_cdp_neighbor :
  parse_cdp_int_detail_for_ip
    (lit "Device ID: SW2" ++ Lab.nl ++ lit "IP address: 10.0.0.1" ++ Lab.nl ++
     lit "Port ID (outgoing port): Gi0/1")
  = Some {| device_id := lit "SW2"; ips := [lit "10.0.0.1"];
            neighbor_port := Some (lit "Gi0/1") |} /\
  parse_cdp_int_detail_for_ip (lit "IP address: 10.0.0.1") = None /\
  parse_cdp_int_detail_for_ip (lit "device id: SW2") = None.
Proof. repeat split; vm_compute; reflexivity. Qed.

Example get_hostname_banner :
  get_hostname_from_show_ver (lit "SW1 uptime is 5 days") = Some (lit "SW1") /\
  get_hostname_from_show_ver (lit "Hostname  SW7") = Some (lit "SW7") /\
  get_hostname_from_show_ver (lit "hostname") = None /\
  get_hostname_from_show_ver (lit "Cisco IOS Software") = None.
Proof. repeat split; vm_compute; reflexivity. Qed.

(** The operator gives a wrong password; the third candidate succeeds. *)
Example try_connect_fallback :
  dialed (fst (try_connect Lab.connect Lab.sw1 (lit "admin") (lit "admin") 7))
  = [(lit "admin", lit "admin"); (lit "admin", lit "cisco");
     (lit "admin", lit "cisco123")] /\
  snd (try_connect Lab.connect Lab.sw1 (lit "admin") (lit "admin") 7)
  = Ok (Some (Lab.sw1, (lit "admin", lit "cisco123"))).
Proof. split; vm_compute; reflexivity. Qed.

(** A trace over two hops: the result describes the second hop, which shows
    no hostname and is named by its address. *)
Example rastrear_two_hops :
  snd (rastrear_ip_hasta_host Lab.connect Lab.chain 2 Lab.sw1
         (lit "admin") (lit "admin") Lab.target)
  = Some (Ok (Some {| ip := Lab.target; device := Lab.sw2;
                      interface := lit "Gi1/0/1";
                      mac := lit "aabb.ccdd.eeff" |})) /\
  dialed_hosts (fst (rastrear_ip_hasta_host Lab.connect Lab.chain 2 Lab.sw1
                       (lit "admin") (lit "cisco123") Lab.target))
  = [Lab.sw1; Lab.sw2].
Proof. split; vm_compute; reflexivity. Qed.

(** ** More on substrings, fields and lines *)

Lemma startswith_prefix p post : startswith (p ++ post) p = true.
Proof.
  induction p as [|x p IH]; [destruct post; reflexivity|].
  simpl. now rewrite Ascii.eqb_refl, IH.
Qed.

Lemma contains_infix pre sub post : contains (pre ++ sub ++ post) sub = true.
Proof.
  induction pre as [|a pre IH].
  - cbn [app]. destruct (sub ++ post) eqn:E; cbn [contains];
      rewrite <- E, startswith_prefix; reflexivity.
  - cbn [app contains]. rewrite IH. apply orb_true_r.
Qed.

Lemma contains_iff s sub :
  contains s sub = true <-> exists pre post, s = pre ++ sub ++ post.
Proof.
  split; [apply contains_app|].
  intros (pre & post & ->). apply contains_infix.
Qed.

Lemma contains_trans s mid sub :
  contains s mid = true -> contains mid sub = true -> contains s sub = true.
Proof.
  intros H1 H2. apply contains_app in H1 as (p1 & q1 & ->).
  apply contains_app in H2 as (p2 & q2 & ->).
  replace (p1 ++ (p2 ++ sub ++ q2) ++ q1) with ((p1 ++ p2) ++ sub ++ (q2 ++ q1))
    by (rewrite <- !app_assoc; reflexivity).
  apply contains_infix.
Qed.

Lemma flush_all (P : str -> Prop) cur rest :
  (cur <> [] -> P (rev cur)) -> Forall P rest -> Forall P (flush cur rest).
Proof.
  intros Hc Hr. destruct cur as [|c cur]; simpl; [exact Hr|].
  constructor; [apply Hc; discriminate | exact Hr].
Qed.

(** The fields of [split] are tokens. *)
Lemma split_from_is_token s :
  forall cur, forallb non_space cur = true ->
              Forall (fun t => is_token t = true) (split_from cur s).
Proof.
  assert (T : forall cur, forallb non_space cur = true -> cur <> [] ->
                          is_token (rev cur) = true).
  { intros cur H N. unfold is_token.
    destruct (rev cur) as [|a t] eqn:E.
    - apply (f_equal (@rev ascii)) in E. rewrite rev_involutive in E.
      simpl in E. congruence.
    - rewrite <- E. rewrite forallb_forall in *. intros x I.
      apply H. now apply in_rev. }
  induction s as [|c s IH]; intros cur H; cbn [split_from].
  - apply flush_all; [now apply T | constructor].
  - destruct (isspace c) eqn:E.
    + apply flush_all; [now apply T | now apply IH].
    + apply IH. simpl. unfold non_space at 1. now rewrite E.
Qed.

Lemma split_is_token s : Forall (fun t => is_token t = true) (split s).
Proof. now apply split_from_is_token. Qed.

Lemma last_in {A : Type} (l : list A) d : l <> [] -> In (last l d) l.
Proof.
  induction l as [|x l IH]; [congruence|]. intros _.
  destruct l as [|y l]; [now left|]. right. apply IH. discriminate.
Qed.

(** ** try_connect: what is returned *)

Section AttemptsMore.

Variable conn : Type.
Variable ConnectHandler : netmiko_device -> option conn.

Lemma try_combos_outcome host timeout cs :
  try_combos ConnectHandler host timeout cs =
  (map (fun cred => Dial (device_for host timeout cred))
       (up_to_first (fun cred =>
                       match ConnectHandler (device_for host timeout cred) with
                       | Some _ => true
                       | None => false
                       end) cs)
   ++ match first_some (fun cred => ConnectHandler (device_for host timeout cred))
                       cs with
      | Some c => [Enable c]
      | None => []
      end,
   Ok (first_some (fun cred =>
                     option_map (fun c => (c, cred))
                                (ConnectHandler (device_for host timeout cred)))
                  cs)).
Proof.
  induction cs as [|[user pwd] cs IH]; [reflexivity|].
  cbn [try_combos bind tell up_to_first first_some].
  change {| device_type := lit "cisco_ios"; host := host; username := user;
            password := pwd; timeout := timeout |}
    with (device_for host timeout (user, pwd)).
  destruct (ConnectHandler (device_for host timeout (user, pwd))) as [c|].
  - reflexivity.
  - rewrite IH. reflexivity.
Qed.

End AttemptsMore.

(** ** The ways a hop can go *)

Section HopCases.

Variable conn : Type.
Variable ConnectHandler : netmiko_device -> option conn.
Variable send_command : conn -> str -> option str.
Variables user pwd ip_objetivo : str.

Lemma try_connect_no_raise host :
  exists r, snd (try_connect ConnectHandler host user pwd 7) = Ok r.
Proof.
  unfold try_connect. rewrite try_combos_outcome. eexists. reflexivity.
Qed.

(** Every pass through the loop body takes one of eight ways; [P] holds of
    the pass when it holds of each. *)
Lemma hop_cases (current_host : str)
    (P : list (event conn) * result step -> Prop) :
  let tc := try_connect ConnectHandler current_host user pwd 7 in
  (snd tc = Ok None -> P (fst tc, Ok (Return None))) ->
  (forall c creds,
      snd tc = Ok (Some (c, creds)) ->
      send_command c CMD_VER = None ->
      P (fst tc ++ [Send c CMD_VER], Raise)) ->
  (forall c creds show_ver,
      snd tc = Ok (Some (c, creds)) ->
      send_command c CMD_VER = Some show_ver ->
      send_command c CMD_ARP = None ->
      P (fst tc ++ [Send c CMD_VER; Send c CMD_ARP], Raise)) ->
  (forall c creds show_ver arp_out,
      snd tc = Ok (Some (c, creds)) ->
      send_command c CMD_VER = Some show_ver ->
      send_command c CMD_ARP = Some arp_out ->
      find_mac_in_arp arp_out ip_objetivo = None ->
      P (fst tc ++ [Send c CMD_VER; Send c CMD_ARP; Disconnect c],
         Ok (Return None))) ->
  (forall c creds show_ver arp_out mac_found,
      snd tc = Ok (Some (c, creds)) ->
      send_command c CMD_VER = Some show_ver ->
      send_command c CMD_ARP = Some arp_out ->
      find_mac_in_arp arp_out ip_objetivo = Some mac_found ->
      mac_table_of send_command c = None ->
      P (fst tc ++ [Send c CMD_VER; Send c CMD_ARP]
                ++ mac_table_calls send_command c, Raise)) ->
  (forall c creds show_ver arp_out mac_found mac_table_out,
      snd tc = Ok (Some (c, creds)) ->
      send_command c CMD_VER = Some show_ver ->
      send_command c CMD_ARP = Some arp_out ->
      find_mac_in_arp arp_out ip_objetivo = Some mac_found ->
      mac_table_of send_command c = Some mac_table_out ->
      find_interface_by_mac mac_table_out mac_found = None ->
      P (fst tc ++ [Send c CMD_VER; Send c CMD_ARP]
                ++ mac_table_calls send_command c ++ [Disconnect c],
         Ok (Return None))) ->
  (forall c creds show_ver arp_out mac_found mac_table_out intf,
      snd tc = Ok (Some (c, creds)) ->
      send_command c CMD_VER = Some show_ver ->
      send_command c CMD_ARP = Some arp_out ->
      find_mac_in_arp arp_out ip_objetivo = Some mac_found ->
      mac_table_of send_command c = Some mac_table_out ->
      find_interface_by_mac mac_table_out mac_found = Some intf ->
      send_command c (CMD_CDP_INT_FMT intf) = None ->
      P (fst tc ++ [Send c CMD_VER; Send c CMD_ARP]
                ++ mac_table_calls send_command c
                ++ [Send c (CMD_CDP_INT_FMT intf)], Raise)) ->
  (forall c show_ver mac_found intf cdp_out,
      discovers ConnectHandler send_command user pwd ip_objetivo
                current_host c show_ver mac_found intf cdp_out ->
      let found := {| ip := ip_objetivo;
                      device := hostname_or show_ver current_host;
                      interface := intf; mac := mac_found |} in
      let d := decide found (parse_cdp_int_detail_for_ip cdp_out) in
      P (fst tc ++ [Send c CMD_VER; Send c CMD_ARP]
                ++ mac_table_calls send_command c
                ++ [Send c (CMD_CDP_INT_FMT intf); Disconnect c] ++ fst d,
         Ok (snd d))) ->
  P (hop ConnectHandler send_command user pwd ip_objetivo current_host).
Proof.
  cbv zeta. unfold hop.
  destruct (try_connect_no_raise current_host) as [r Hr].
  destruct (try_connect ConnectHandler current_host user pwd 7)
    as [l0 r0] eqn:Etc.
  cbn [fst snd] in *. subst r0.
  intros H1 H2 H3 H4 H5 H6 H7 H8.
  destruct r as [[c creds]|]; cbn [bind ret];
    [|rewrite app_nil_r; now apply H1].
  specialize (H2 c creds eq_refl). specialize (H3 c creds).
  specialize (H4 c creds). specialize (H5 c creds). specialize (H6 c creds).
  specialize (H7 c creds). specialize (H8 c).
  clear H1.
  unfold send at 1.
  destruct (send_command c CMD_VER) as [show_ver|] eqn:Hv; cbn [bind];
    [|now apply H2].
  specialize (H3 show_ver eq_refl eq_refl). specialize (H4 show_ver).
  specialize (H5 show_ver). specialize (H6 show_ver).
  specialize (H7 show_ver). specialize (H8 show_ver). clear H2.
  unfold send at 1.
  destruct (send_command c CMD_ARP) as [arp_out|] eqn:Ha; cbn [bind];
    [|now apply H3].
  specialize (H4 arp_out eq_refl eq_refl eq_refl). specialize (H5 arp_out).
  specialize (H6 arp_out). specialize (H7 arp_out). clear H3.
  destruct (find_mac_in_arp arp_out ip_objetivo) as [mac_found|] eqn:Hm;
    [|cbn [bind tell ret app]; now apply H4].
  pose proof (canonical_nonempty _ (find_mac_in_lines_canonical _ _ _ Hm)) as Nm.
  destruct mac_found as [|m0 mac_found]; [congruence|].
  specialize (H5 (m0 :: mac_found) eq_refl eq_refl eq_refl eq_refl).
  specialize (H6 (m0 :: mac_found)). specialize (H7 (m0 :: mac_found)).
  specialize (H8 (m0 :: mac_found)). clear H4.
  assert (D : forall mt intf cdp_out,
             mac_table_of send_command c = Some mt ->
             find_interface_by_mac mt (m0 :: mac_found) = Some intf ->
             send_command c (CMD_CDP_INT_FMT intf) = Some cdp_out ->
             discovers ConnectHandler send_command user pwd ip_objetivo
                       current_host c show_ver (m0 :: mac_found) intf cdp_out).
  { intros mt intf cdp_out Ht Hi Hn.
    apply Discovers with (creds := creds) (arp_out := arp_out)
                         (mac_table_out := mt); try assumption.
    now rewrite Etc. }
  assert (T : forall mt,
             mac_table_of send_command c = Some mt ->
             forall intf,
               find_interface_by_mac mt (m0 :: mac_found) = Some intf ->
               intf <> []).
  { intros mt _ intf Hi. exact (find_interface_by_mac_nonempty _ _ _ Hi). }
  unfold mac_table_of, mac_table_calls in *.
  unfold send at 1.
  destruct (send_command c CMD_MAC) as [out|] eqn:Hmac; cbn [bind];
    [|now apply H5].
  destruct (negb (truthy (Some out)) || contains out (lit "Invalid input")).
  - unfold send at 1.
    destruct (send_command c CMD_MAC_ALT) as [mt|] eqn:Halt; cbn [bind];
      [|now apply H5].
    specialize (H6 mt eq_refl eq_refl eq_refl eq_refl eq_refl).
    specialize (H7 mt). specialize (D mt). specialize (T mt eq_refl).
    destruct (find_interface_by_mac mt (m0 :: mac_found)) as [intf|] eqn:Hi;
      [|now apply H6].
    specialize (T intf eq_refl). destruct intf as [|i0 intf]; [congruence|].
    unfold send at 1.
    destruct (send_command c (CMD_CDP_INT_FMT (i0 :: intf))) as [cdp_out|]
      eqn:Hn; cbn [bind tell].
    + specialize (H8 (i0 :: intf) cdp_out (D _ _ eq_refl eq_refl Hn)).
      unfold decide, hostname_or in H8.
      destruct (parse_cdp_int_detail_for_ip cdp_out) as [info|];
        [destruct (ips info)|]; exact H8.
    + exact (H7 (i0 :: intf) eq_refl eq_refl eq_refl eq_refl eq_refl eq_refl Hn).
  - cbn [bind ret].
    specialize (H6 out eq_refl eq_refl eq_refl eq_refl eq_refl).
    specialize (H7 out). specialize (D out). specialize (T out eq_refl).
    destruct (find_interface_by_mac out (m0 :: mac_found)) as [intf|] eqn:Hi;
      [|now apply H6].
    specialize (T intf eq_refl). destruct intf as [|i0 intf]; [congruence|].
    unfold send at 1.
    destruct (send_command c (CMD_CDP_INT_FMT (i0 :: intf))) as [cdp_out|]
      eqn:Hn; cbn [bind tell].
    + specialize (H8 (i0 :: intf) cdp_out (D _ _ eq_refl eq_refl Hn)).
      unfold decide, hostname_or in H8.
      destruct (parse_cdp_int_detail_for_ip cdp_out) as [info|];
        [destruct (ips info)|]; exact H8.
    + exact (H7 (i0 :: intf) eq_refl eq_refl eq_refl eq_refl eq_refl eq_refl Hn).
Qed.

End HopCases.

(** ** What the parsers return *)

Lemma find_interface_in_lines_token lines mac intf :
  find_interface_in_lines lines mac = Some intf ->
  is_token intf = true /\
  exists line, In line lines /\ In intf (split line) /\
               contains (lower line) (lower mac) = true.
Proof.
  induction lines as [|line rest IH]; cbn [find_interface_in_lines];
    [discriminate|].
  destruct (truthy (Some mac) && contains (lower line) (lower mac)) eqn:C.
  - destruct (4 <=? length (split line)) eqn:E.
    + intros [= <-]. apply andb_prop in C as [_ C].
      assert (I : In (last (split line) []) (split line)).
      { apply last_in. apply Nat.leb_le in E.
        destruct (split line); [simpl in E; lia | discriminate]. }
      split.
      * pose proof (split_is_token line) as F. rewrite Forall_forall in F.
        now apply F.
      * exists line. split; [now left|]. split; assumption.
    + intros H. destruct (IH H) as (T & l & I & R). split; [exact T|].
      exists l. split; [now right | exact R].
  - intros H. destruct (IH H) as (T & l & I & R). split; [exact T|].
    exists l. split; [now right | exact R].
Qed.

Lemma hostname_in_lines_token lines h :
  hostname_in_lines lines = Some h -> is_token h = true.
Proof.
  induction lines as [|line rest IH]; cbn [hostname_in_lines]; [discriminate|].
  pose proof (split_is_token line) as F. rewrite Forall_forall in F.
  destruct (contains line (lit " uptime ")) eqn:U.
  - apply split_uptime_nonempty in U as (tok & tl & E & _).
    rewrite E in *. intros [= <-]. apply F. now left.
  - destruct (startswith (lower line) (lit "hostname")); [|exact IH].
    destruct (2 <=? length (split line)) eqn:E; [|exact IH].
    intros [= <-]. apply F. apply last_in.
    apply Nat.leb_le in E. destruct (split line); [simpl in E; lia | discriminate].
Qed.

Lemma filter_map_all {A B : Type} (f : A -> option B) (P : B -> Prop) l :
  (forall x y, f x = Some y -> P y) -> Forall P (filter_map f l).
Proof.
  intros H. induction l as [|x l IH]; cbn [filter_map]; [constructor|].
  destruct (f x) as [y|] eqn:E; [|exact IH].
  constructor; [now apply (H x) | exact IH].
Qed.

Lemma ip_of_line_digits line g :
  ip_of_line line = Some g -> g <> [] /\ forallb is_dot_or_digit g = true.
Proof.
  unfold ip_of_line, matched_text.
  destruct (re_search RE_IP_ADDRESS line) as [m|] eqn:E; [|discriminate].
  apply re_search_ip_group in E as (g' & G & N & F). rewrite G.
  intros [= <-]. split; assumption.
Qed.

Lemma port_of_line_token line g :
  port_of_line line = Some g -> is_token g = true.
Proof.
  unfold port_of_line, matched_text.
  destruct (re_search RE_PORT_ID line) as [m|] eqn:E; [|discriminate].
  apply re_search_port_group in E as (g' & G & N & F). rewrite G.
  intros [= <-]. unfold is_token. destruct g'; [congruence | exact F].
Qed.

Lemma last_opt_in {A : Type} (l : list A) x : last_opt l = Some x -> In x l.
Proof.
  unfold last_opt. induction l as [|y l IH]; [discriminate|].
  destruct l as [|z l]; [intros [= ->]; now left|].
  intros H. right. apply IH. exact H.
Qed.

(** ** More on stripping *)

Lemma lstrip_spec s :
  exists ws, s = ws ++ lstrip s /\ forallb isspace ws = true /\
             (forall a t, lstrip s = a :: t -> isspace a = false).
Proof.
  induction s as [|c s (ws & E & W & H)]; simpl.
  - exists []. repeat split. discriminate.
  - destruct (isspace c) eqn:C.
    + exists (c :: ws). simpl. rewrite C, <- E. repeat split; assumption.
    + exists []. repeat split. intros a t [= <- _]. exact C.
Qed.

Lemma lstrip_spaces ws s : forallb isspace ws = true -> lstrip (ws ++ s) = lstrip s.
Proof.
  induction ws as [|c ws IH]; [reflexivity|]. simpl.
  intros H. apply andb_prop in H as [C H]. rewrite C. now apply IH.
Qed.

Lemma lstrip_all_spaces ws : forallb isspace ws = true -> lstrip ws = [].
Proof.
  intros H. rewrite <- (app_nil_r ws). now rewrite lstrip_spaces.
Qed.

Lemma lstrip_app_some s r :
  forallb isspace s = false -> lstrip (s ++ r) = lstrip s ++ r.
Proof.
  induction s as [|c s IH]; [discriminate|]. simpl.
  destruct (isspace c); [exact IH | reflexivity].
Qed.

Lemma rstrip_spaces s ws : forallb isspace ws = true -> rstrip (s ++ ws) = rstrip s.
Proof.
  intros H. unfold rstrip. rewrite rev_app_distr, lstrip_spaces; [reflexivity|].
  rewrite forallb_forall in *. intros x I. apply H. now apply in_rev.
Qed.

(** Whitespace around a text does not change what [strip] gives. *)
Lemma strip_padded l s r :
  forallb isspace l = true -> forallb isspace r = true ->
  strip (l ++ s ++ r) = strip s.
Proof.
  intros Hl Hr. unfold strip. rewrite lstrip_spaces by exact Hl.
  destruct (forallb isspace s) eqn:A.
  - rewrite (lstrip_all_spaces s A), lstrip_all_spaces; [reflexivity|].
    rewrite forallb_app. now rewrite A, Hr.
  - rewrite lstrip_app_some by exact A. now apply rstrip_spaces.
Qed.

Lemma strip_ends s :
  (forall a t, s = a :: t -> isspace a = false) ->
  (forall a t, rev s = a :: t -> isspace a = false) ->
  strip s = s.
Proof.
  intros H1 H2. unfold strip, rstrip.
  rewrite (lstrip_noop s H1), (lstrip_noop (rev s) H2).
  apply rev_involutive.
Qed.

(** What [strip] gives has no whitespace at its ends. *)
Lemma strip_stripped s : strip (strip s) = strip s.
Proof.
  apply strip_ends.
  - intros a t E. unfold strip, rstrip in E.
    destruct (lstrip_spec s) as (_ & _ & _ & H1).
    destruct (lstrip_spec (rev (lstrip s))) as (ws & E2 & _ & _).
    apply (f_equal (@rev ascii)) in E2.
    rewrite rev_involutive, rev_app_distr, E in E2.
    apply (H1 a (t ++ rev ws)). exact E2.
  - intros a t E. unfold strip, rstrip in E. rewrite rev_involutive in E.
    destruct (lstrip_spec (rev (lstrip s))) as (_ & _ & _ & H).
    now apply (H a t).
Qed.

(** ** Lines are parts of the text *)

Lemma splitlines_from_infix s :
  (forall cur line,
      In line (splitlines_from cur s) ->
      exists pre post, rev cur ++ s = pre ++ line ++ post) /\
  (forall c cur line,
      In line (splitlines_from cur (c :: s)) ->
      exists pre post, rev cur ++ c :: s = pre ++ line ++ post).
Proof.
  assert (F : forall cur line,
             In line (flush cur []) ->
             exists pre post, rev cur ++ [] = pre ++ line ++ post).
  { intros cur line I. destruct cur as [|x cur]; [destruct I|].
    destruct I as [<-|[]]. exists [], []. now rewrite !app_nil_r. }
  assert (K : forall cur c (rest : str) line mid,
             (In line (splitlines_from [] rest) ->
              exists pre post, rev [] ++ rest = pre ++ line ++ post) ->
             In line (rev cur :: splitlines_from [] rest) ->
             exists pre post, rev cur ++ c :: mid ++ rest = pre ++ line ++ post).
  { intros cur c rest line mid H [<-|I].
    - exists [], (c :: mid ++ rest). reflexivity.
    - destruct (H I) as (pre & post & E). simpl in E.
      exists (rev cur ++ c :: mid ++ pre), post.
      rewrite E, <- !app_assoc. simpl. now rewrite <- !app_assoc. }
  induction s as [|a s [IH1 IH2]].
  - split; [exact F|].
    intros c cur line. cbn [splitlines_from].
    destruct (Ascii.eqb c "013").
    + intros I. apply (K cur c [] line []); [|exact I]. intros [].
    + destruct (is_linebreak c).
      * intros I. apply (K cur c [] line []); [|exact I]. intros [].
      * intros I. apply F in I as (pre & post & E). exists pre, post.
        rewrite <- E. simpl. now rewrite <- !app_assoc.
  - split; [exact (IH2 a)|].
    intros c cur line. cbn [splitlines_from].
    destruct (Ascii.eqb c "013").
    + destruct (Ascii.eqb a "010").
      * intros I. apply (K cur c s line [a]); [|exact I]. apply IH1.
      * intros I. apply (K cur c (a :: s) line []); [|exact I]. apply (IH2 a).
    + destruct (is_linebreak c).
      * intros I. apply (K cur c (a :: s) line []); [|exact I]. apply (IH2 a).
      * intros I. apply (IH2 a) in I as (pre & post & E). exists pre, post.
        rewrite <- E. simpl. now rewrite <- !app_assoc.
Qed.

Lemma splitlines_infix s line :
  In line (splitlines s) -> contains s line = true.
Proof.
  intros I. apply (proj1 (splitlines_from_infix s) []) in I as (pre & post & E).
  simpl in E. rewrite E. apply contains_infix.
Qed.

(** ** Properties of the parsers *)

(** X1: whitespace around the raw address does not change the result. *)
Theorem normalize_mac_to_dots_padded (l mac_raw r : str) :
  forallb isspace l = true -> forallb isspace r = true ->
  normalize_mac_to_dots (l ++ mac_raw ++ r) = normalize_mac_to_dots mac_raw.
Proof.
  intros Hl Hr.
  assert (E : mac_digits (l ++ mac_raw ++ r) = mac_digits mac_raw).
  { unfold mac_digits. now rewrite strip_padded. }
  unfold normalize_mac_to_dots. rewrite E.
  destruct mac_raw as [|a t].
  - unfold mac_digits. cbn. destruct (l ++ r); reflexivity.
  - destruct (l ++ (a :: t) ++ r) eqn:N; [|reflexivity].
    apply (f_equal (@length ascii)) in N. rewrite !length_app in N.
    simpl in N. lia.
Qed.

Lemma normalize_mac_to_dots_padded_witness :
  normalize_mac_to_dots (lit "  " ++ lit "AA:BB:CC:DD:EE:FF" ++ ["009"%char])
  = normalize_mac_to_dots (lit "AA:BB:CC:DD:EE:FF").
Proof.
  apply (normalize_mac_to_dots_padded (lit "  ") (lit "AA:BB:CC:DD:EE:FF")
           ["009"%char]); reflexivity.
Defined.

(** X2: the result depends on the hexadecimal digits only, not on their
    letter case nor on the separators between them, and it is a fixed
    point. *)
Theorem normalize_mac_to_dots_same_digits (w1 w2 : str) :
  mac_text w1 -> mac_text w2 ->
  lower (filter is_hex_ci w1) = lower (filter is_hex_ci w2) ->
  normalize_mac_to_dots w1 = normalize_mac_to_dots w2 /\
  exists m, normalize_mac_to_dots w1 = Some m /\
            is_canonical_mac m = true /\
            normalize_mac_to_dots m = Some m.
Proof.
  intros [F1 L1] [F2 L2] E.
  rewrite (normalize_hex_or_sep w1 F1 L1), (normalize_hex_or_sep w2 F2 L2).
  unfold lower in E. rewrite E. split; [reflexivity|].
  eexists. split; [reflexivity|].
  assert (C : is_canonical_mac
                (dotted (map lower_char (filter is_hex_ci w2))) = true).
  { apply dotted_canonical; [now rewrite length_map | apply hex_digits_lowered]. }
  split; [exact C | now apply normalize_canonical_fixed].
Qed.

Lemma normalize_mac_to_dots_same_digits_witness :
  normalize_mac_to_dots (lit "AA:BB:CC:DD:EE:0F")
  = normalize_mac_to_dots (lit "aabb-ccdd-ee0f") /\
  exists m, normalize_mac_to_dots (lit "AA:BB:CC:DD:EE:0F") = Some m /\
            is_canonical_mac m = true /\
            normalize_mac_to_dots m = Some m.
Proof.
  apply (normalize_mac_to_dots_same_digits (lit "AA:BB:CC:DD:EE:0F")
           (lit "aabb-ccdd-ee0f")).
  - split; [|reflexivity].
    repeat (apply Forall_cons;
            [first [left; reflexivity | right; reflexivity]|]).
    apply Forall_nil.
  - split; [|reflexivity].
    repeat (apply Forall_cons;
            [first [left; reflexivity | right; reflexivity]|]).
    apply Forall_nil.
  - vm_compute. reflexivity.
Defined.

(** X3: when the target address occurs nowhere in the ARP text, the result
    is [None]. *)
Theorem find_mac_in_arp_absent (arp_output ip_target : str) :
  contains arp_output ip_target = false ->
  find_mac_in_arp arp_output ip_target = None.
Proof.
  intros H. unfold find_mac_in_arp.
  assert (A : forall line, In line (splitlines arp_output) ->
                           contains line ip_target = false).
  { intros line I. destruct (contains line ip_target) eqn:C; [|reflexivity].
    rewrite <- H. symmetry.
    apply (contains_trans _ line); [now apply splitlines_infix | exact C]. }
  induction (splitlines arp_output) as [|line rest IH]; [reflexivity|].
  cbn [find_mac_in_lines]. rewrite (A line) by now left.
  apply IH. intros l I. apply A. now right.
Qed.

Lemma find_mac_in_arp_absent_witness :
  contains Lab.arp_table (lit "10.0.0.6") = false /\
  find_mac_in_arp Lab.arp_table (lit "10.0.0.6") = None.
Proof.
  split; [reflexivity|].
  apply (find_mac_in_arp_absent Lab.arp_table (lit "10.0.0.6")). reflexivity.
Defined.

(** X4: the target is looked for as a substring of a line: when the lookup
    of an address succeeds, so does the lookup of every part of that
    address. *)
Theorem find_mac_in_arp_substring (arp_output ip_target part m : str) :
  find_mac_in_arp arp_output ip_target = Some m ->
  contains ip_target part = true ->
  exists m', find_mac_in_arp arp_output part = Some m'.
Proof.
  unfold find_mac_in_arp. intros H P. revert H.
  induction (splitlines arp_output) as [|line rest IH];
    cbn [find_mac_in_lines]; [discriminate|].
  destruct (contains line ip_target) eqn:C.
  - rewrite (contains_trans _ _ _ C P).
    destruct (mac_of_arp_line line) as [r|] eqn:E; [|exact IH].
    intros ->. now exists m.
  - destruct (contains line part); [|exact IH].
    destruct (mac_of_arp_line line) as [r|] eqn:E; [|exact IH].
    intros _. apply mac_of_arp_line_canonical in E as (x & -> & _).
    now exists x.
Qed.

(** X5: what [find_interface_by_mac] returns is a field of a line that
    contains the address: it is not empty and has no whitespace. *)
Theorem find_interface_by_mac_token (mac_table_output mac intf : str) :
  find_interface_by_mac mac_table_output mac = Some intf ->
  is_token intf = true /\
  exists line, In line (splitlines mac_table_output) /\
               In intf (split line) /\
               contains (lower line) (lower mac) = true.
Proof. apply find_interface_in_lines_token. Qed.

Lemma find_interface_by_mac_token_witness :
  is_token (lit "Gi1/0/1") = true /\
  exists line, In line (splitlines Lab.mac_table) /\
               In (lit "Gi1/0/1") (split line) /\
               contains (lower line) (lower (lit "aabb.ccdd.eeff")) = true.
Proof.
  apply (find_interface_by_mac_token Lab.mac_table (lit "aabb.ccdd.eeff")).
  reflexivity.
Defined.

(** X6: the letter case of the address does not matter. *)
Theorem find_interface_by_mac_any_case (mac_table_output mac1 mac2 : str) :
  lower mac1 = lower mac2 ->
  find_interface_by_mac mac_table_output mac1
  = find_interface_by_mac mac_table_output mac2.
Proof.
  intros E. unfold find_interface_by_mac.
  assert (T : truthy (Some mac1) = truthy (Some mac2)).
  { destruct mac1, mac2; try reflexivity; discriminate. }
  induction (splitlines mac_table_output) as [|line rest IH]; [reflexivity|].
  cbn [find_interface_in_lines]. now rewrite T, E, IH.
Qed.

Lemma find_interface_by_mac_any_case_witness :
  find_interface_by_mac Lab.mac_table (lit "AABB.CCDD.EEFF")
  = find_interface_by_mac Lab.mac_table (lit "aabb.ccdd.eeff").
Proof.
  apply (find_interface_by_mac_any_case Lab.mac_table). reflexivity.
Defined.

(** X7: a hostname that is returned is a field of a line: it is not empty
    and has no whitespace. *)
Theorem get_hostname_token (show_ver h : str) :
  get_hostname_from_show_ver show_ver = Some h -> is_token h = true.
Proof. apply hostname_in_lines_token. Qed.

Lemma get_hostname_token_witness : is_token (lit "SW1") = true.
Proof.
  apply (get_hostname_token (lit "  SW1 uptime is 5 days")). reflexivity.
Defined.

(** X8: in a neighbor that is returned the device name is not empty and has
    no whitespace at its ends, every address is a non-empty run of digits
    and dots, and the port, when there is one, is not empty and has no
    whitespace. *)
Theorem parse_cdp_result_well_formed (cdp_output : str) (info : cdp_info) :
  parse_cdp_int_detail_for_ip cdp_output = Some info ->
  device_id info <> [] /\
  strip (device_id info) = device_id info /\
  Forall (fun a => a <> [] /\ forallb is_dot_or_digit a = true) (ips info) /\
  (forall p, neighbor_port info = Some p -> is_token p = true).
Proof.
  unfold parse_cdp_int_detail_for_ip.
  destruct (negb (truthy (Some cdp_output))
            || negb (contains cdp_output (lit "Device ID"))); [discriminate|].
  rewrite fold_cdp_line. cbn [app or_keep].
  destruct (last_opt (filter_map device_id_of_line
                        (map strip (splitlines cdp_output))))
    as [[|c d]|] eqn:D; cbn [or_keep]; try discriminate.
  intros [= <-]. cbn [device_id ips neighbor_port].
  split; [discriminate|]. split; [|split].
  - apply last_opt_in in D.
    pose proof (filter_map_all device_id_of_line (fun x => strip x = x)
                  (map strip (splitlines cdp_output))) as F.
    rewrite Forall_forall in F. apply F; [|exact D].
    intros x y. unfold device_id_of_line.
    destruct (startswith (lower x) (lit "device id:")); [|discriminate].
    intros [= <-]. apply strip_stripped.
  - apply filter_map_all. intros x y. apply ip_of_line_digits.
  - intros p H.
    destruct (last_opt (filter_map port_of_line
                          (map strip (splitlines cdp_output)))) as [q|] eqn:Q;
      cbn [or_keep] in H; [|discriminate].
    injection H as ->. apply last_opt_in in Q.
    pose proof (filter_map_all port_of_line (fun x => is_token x = true)
                  (map strip (splitlines cdp_output))) as F.
    rewrite Forall_forall in F. apply F; [|exact Q].
    intros x y. apply port_of_line_token.
Qed.

Lemma find_mac_in_arp_substring_witness :
  exists m', find_mac_in_arp arp_other_host (lit "10.0.0.5") = Some m'.
Proof.
  apply (find_mac_in_arp_substring arp_other_host (lit "10.0.0.50")
           (lit "10.0.0.5") (lit "0011.2233.4455"));
    vm_compute; reflexivity.
Defined.

Lemma parse_cdp_result_well_formed_witness :
  lit "SW2" <> [] /\
  strip (lit "SW2") = lit "SW2" /\
  Forall (fun a => a <> [] /\ forallb is_dot_or_digit a = true) [Lab.sw2] /\
  (forall p, Some (lit "Gi0/1") = Some p -> is_token p = true).
Proof.
  apply (parse_cdp_result_well_formed (Lab.cdp_to (lit "SW2") Lab.sw2)
           {| device_id := lit "SW2"; ips := [Lab.sw2];
              neighbor_port := Some (lit "Gi0/1") |}).
  vm_compute. reflexivity.
Defined.

(** ** try_connect: the order of the candidates *)

Lemma fold_add_new xs :
  NoDup xs ->
  forall c, fold_left add_new xs c
            = c ++ filter (fun x => negb (pair_in x c)) xs.
Proof.
  induction 1 as [|x xs N _ IH]; intros c; cbn [fold_left filter].
  - now rewrite app_nil_r.
  - rewrite IH. unfold add_new.
    destruct (pair_in x c) eqn:E; cbn [negb]; [reflexivity|].
    rewrite <- app_assoc. cbn [app]. f_equal. f_equal.
    apply filter_ext_in. intros y I. f_equal.
    unfold pair_in. rewrite existsb_app. cbn [existsb].
    rewrite orb_false_r.
    destruct (pair_eqb y x) eqn:Q; [|apply orb_false_r].
    exfalso. apply N. unfold pair_eqb in Q. apply andb_prop in Q as [Q1 Q2].
    apply str_eqb_eq in Q1, Q2. destruct x, y. simpl in *. now subst.
Qed.

Lemma add_cross_fold users passwords c :
  add_cross users passwords c = fold_left add_new (list_prod users passwords) c.
Proof.
  unfold add_cross. revert c.
  induction users as [|u users IH]; intros c; [reflexivity|].
  cbn [fold_left list_prod]. rewrite fold_left_app, IH. f_equal.
  clear. revert c. induction passwords as [|p ps IH]; intros c; [reflexivity|].
  cbn [fold_left map]. apply IH.
Qed.

Lemma list_prod_NoDup (users passwords : list str) :
  NoDup users -> NoDup passwords -> NoDup (list_prod users passwords).
Proof.
  intros NU NP. induction NU as [|u users N _ IH]; [constructor|].
  cbn [list_prod]. apply NoDup_app.
  - apply map_NoDup; [|exact NP]. intros p q [= ->]. reflexivity.
  - exact IH.
  - intros [a b] I1 I2. apply in_map_iff in I1 as (p & [= <- <-] & _).
    apply in_prod_iff in I2 as [I2 _]. contradiction.
Qed.

(** X9: the candidates in order: the given pair, the given user with the
    other fallback passwords, the other fallback users with the given
    password, then the pairs of a fallback user and a fallback password
    that are not among the former, users first. *)
Theorem combos_order (user_given pass_given : str) :
  let targeted :=
    (user_given, pass_given)
    :: map (fun p => (user_given, p))
           (filter (fun p => negb (str_eqb p pass_given)) COMMON_PASSWORDS)
    ++ map (fun u => (u, pass_given))
           (filter (fun u => negb (str_eqb u user_given)) COMMON_USERNAMES) in
  combos user_given pass_given =
  targeted
  ++ filter (fun x => negb (pair_in x targeted))
            (list_prod COMMON_USERNAMES COMMON_PASSWORDS).
Proof.
  intros targeted. unfold combos, combos_of.
  rewrite add_cross_fold, fold_add_new
    by (apply list_prod_NoDup;
        [apply COMMON_USERNAMES_NoDup | apply COMMON_PASSWORDS_NoDup]).
  match goal with
  | |- ?c ++ _ = _ =>
      replace c with targeted
        by (subst targeted; rewrite <- app_assoc; reflexivity)
  end.
  reflexivity.
Qed.

Lemma str_eqb_neq a b : str_eqb a b = false <-> a <> b.
Proof.
  split.
  - intros H E. apply str_eqb_eq in E. congruence.
  - intros N. destruct (str_eqb a b) eqn:E; [|reflexivity].
    apply str_eqb_eq in E. contradiction.
Qed.

(** X10: the pairs that are candidates: the given pair, the given user with a
    fallback password, a fallback user with the given password, and a
    fallback user with a fallback password; no other pair is tried. *)
Theorem combos_membership (user_given pass_given u p : str) :
  In (u, p) (combos user_given pass_given) <->
  (u = user_given /\ p = pass_given) \/
  (u = user_given /\ In p COMMON_PASSWORDS) \/
  (In u COMMON_USERNAMES /\ p = pass_given) \/
  (In u COMMON_USERNAMES /\ In p COMMON_PASSWORDS).
Proof.
  unfold combos, combos_of.
  rewrite add_cross_fold, fold_add_new
    by (apply list_prod_NoDup;
        [apply COMMON_USERNAMES_NoDup | apply COMMON_PASSWORDS_NoDup]).
  rewrite !in_app_iff, filter_In, !in_map_iff, in_prod_iff. cbn [In].
  split.
  - intros [[[[[= <- <-]|[]]|(q & [= <- <-] & I)]|(v & [= <- <-] & I)]|[I _]].
    + now left.
    + apply filter_In in I as [I _]. right. left. now split.
    + apply filter_In in I as [I _]. right. right. left. now split.
    + right. right. right. exact I.
  - intros [[-> ->]|[[-> I]|[[I ->]|[I1 I2]]]].
    + left. left. left. now left.
    + destruct (str_eqb p pass_given) eqn:E.
      * apply str_eqb_eq in E as ->. left. left. left. now left.
      * left. left. right. exists p. split; [reflexivity|].
        apply filter_In. split; [exact I | now rewrite E].
    + destruct (str_eqb u user_given) eqn:E.
      * apply str_eqb_eq in E as ->. left. left. left. now left.
      * left. right. exists u. split; [reflexivity|].
        apply filter_In. split; [exact I | now rewrite E].
    + match goal with
      | |- ?A \/ (_ /\ negb (pair_in ?x ?t) = true) =>
          destruct (pair_in x t) eqn:E
      end.
      * left. apply pair_in_In in E. rewrite !in_app_iff in E. cbn [In] in E.
        rewrite !in_map_iff in E. exact E.
      * right. split; [now split | reflexivity].
Qed.

(** ** try_connect: the outcome *)

Section Negotiation.

Variable conn : Type.
Variable ConnectHandler : netmiko_device -> option conn.

Lemma opened_app (a b : list (event conn)) : opened (a ++ b) = opened a + opened b.
Proof. unfold opened. now rewrite filter_app, length_app. Qed.

Lemma closed_app (a b : list (event conn)) : closed (a ++ b) = closed a + closed b.
Proof. unfold closed. now rewrite filter_app, length_app. Qed.

Lemma sent_app (a b : list (event conn)) : sent (a ++ b) = sent a ++ sent b.
Proof. unfold sent. apply flat_map_app. Qed.

Lemma dialed_hosts_app (a b : list (event conn)) :
  dialed_hosts (a ++ b) = dialed_hosts a ++ dialed_hosts b.
Proof. unfold dialed_hosts. apply flat_map_app. Qed.

Lemma dialed_app (a b : list (event conn)) : dialed (a ++ b) = dialed a ++ dialed b.
Proof. unfold dialed. apply flat_map_app. Qed.

Lemma dial_calls host timeout (xs : list (str * str)) :
  let l := map (fun cred => Dial (conn := conn) (device_for host timeout cred)) xs in
  opened l = 0 /\ closed l = 0 /\ sent l = [] /\
  dialed l = xs /\ dialed_hosts l = map (fun _ => host) xs.
Proof.
  induction xs as [|[u p] xs (A & B & C & D & E)]; cbn; [now repeat split|].
  repeat split; try assumption.
  - f_equal. exact D.
  - f_equal. exact E.
Qed.

Lemma first_some_map {A B C : Type} (f : A -> option B) (g : A -> B -> C) l :
  first_some (fun x => option_map (g x) (f x)) l
  = match first_some (fun x => match f x with Some _ => Some x | None => None end) l with
    | Some x => option_map (g x) (f x)
    | None => None
    end.
Proof.
  induction l as [|x l IH]; [reflexivity|]. cbn [first_some].
  destruct (f x) eqn:E; cbn [option_map]; [now rewrite E | exact IH].
Qed.

Lemma first_some_none {A B : Type} (f : A -> option B) l :
  first_some f l = None <-> forall x, In x l -> f x = None.
Proof.
  induction l as [|x l IH]; cbn [first_some].
  - split; [intros _ x [] | reflexivity].
  - destruct (f x) eqn:E.
    + split; [discriminate|]. intros H. rewrite <- E. apply H. now left.
    + rewrite IH. split.
      * intros H y [<-|I]; [exact E | now apply H].
      * intros H y I. apply H. now right.
Qed.

(** X11: the negotiation lets no exception out; it tries the candidates in
    order and stops at the first one that is accepted, whose session and
    pair it returns; it returns nothing exactly when every candidate is
    refused, having tried them all; it opens one session at most and
    releases none. *)
Theorem try_connect_first_accepted (host user_given pass_given : str)
    (timeout : nat) :
  let accepts cred := ConnectHandler (device_for host timeout cred) in
  let tc := try_connect ConnectHandler host user_given pass_given timeout in
  snd tc = Ok (first_some (fun cred => option_map (fun c => (c, cred))
                                                  (accepts cred))
                          (combos user_given pass_given)) /\
  dialed (fst tc)
  = up_to_first (fun cred => match accepts cred with
                             | Some _ => true
                             | None => false
                             end) (combos user_given pass_given) /\
  (snd tc = Ok None <->
   forall cred, In cred (combos user_given pass_given) -> accepts cred = None) /\
  (snd tc = Ok None -> dialed (fst tc) = combos user_given pass_given) /\
  opened (fst tc) = (match snd tc with Ok (Some _) => 1 | _ => 0 end) /\
  closed (fst tc) = 0 /\ sent (fst tc) = [].
Proof.
  cbv zeta. unfold try_connect.
  rewrite try_combos_outcome. cbn [fst snd].
  generalize (combos user_given pass_given) as cs. intros cs.
  match goal with
  | |- context [up_to_first ?f cs] =>
      destruct (dial_calls host timeout (up_to_first f cs))
        as (A & B & C & D & _)
  end.
  rewrite dialed_app, opened_app, closed_app, sent_app, A, B, C, D.
  assert (N : first_some
                (fun cred => option_map (fun c => (c, cred))
                               (ConnectHandler (device_for host timeout cred)))
                cs = None
              <-> first_some (fun cred => ConnectHandler (device_for host timeout cred)) cs = None).
  { rewrite !first_some_none. split; intros H x I; specialize (H x I).
    - cbv beta in *.
      destruct (ConnectHandler (device_for host timeout x));
        [discriminate | reflexivity].
    - cbv beta in *. now rewrite H. }
  split; [reflexivity|]. split; [|split; [|split; [|split]]].
  - destruct (first_some (fun cred => ConnectHandler (device_for host timeout cred)) cs); cbn; now rewrite app_nil_r.
  - split.
    + intros [= H]. apply N in H. now apply first_some_none.
    + intros H. f_equal. apply N. now apply first_some_none.
  - intros [= H]. apply N in H. rewrite H. cbn. rewrite app_nil_r.
    rewrite first_some_none in H. clear -H.
    induction cs as [|x cs IH]; [reflexivity|]. cbn [up_to_first].
    rewrite (H x) by now left. f_equal. apply IH. intros y I. apply H. now right.
  - destruct (first_some
                (fun cred => option_map (fun c => (c, cred))
                               (ConnectHandler (device_for host timeout cred)))
                cs) eqn:E2.
    + destruct (first_some (fun cred => ConnectHandler (device_for host timeout cred)) cs) as [c|] eqn:E; [reflexivity|].
      destruct N as [_ N]. specialize (N eq_refl). discriminate.
    + rewrite (proj1 N eq_refl). reflexivity.
  - split; destruct (first_some (fun cred => ConnectHandler (device_for host timeout cred)) cs); reflexivity.
Qed.

End Negotiation.

(** ** How a trace ends *)

Section Outcomes.

Variable conn : Type.
Variable ConnectHandler : netmiko_device -> option conn.
Variable send_command : conn -> str -> option str.
Variables user pwd ip_objetivo : str.

(** A pass ends with no result for one of the three failures only. *)
Lemma hop_none_inv current_host :
  snd (hop ConnectHandler send_command user pwd ip_objetivo current_host)
  = Ok (Return None) ->
  hop_fails ConnectHandler send_command user pwd ip_objetivo current_host.
Proof.
  apply hop_cases; cbn [snd]; intros; try discriminate.
  - now apply Fails_connect.
  - eapply Fails_arp; eassumption.
  - eapply Fails_mac_table; eassumption.
  - exfalso. unfold decide in *.
    destruct (parse_cdp_int_detail_for_ip cdp_out) as [info|];
      [destruct (ips info)|]; discriminate.
Qed.

(** A pass ends with a result at a terminal hop only, and the result is
    made of what this hop found. *)
Lemma hop_some_inv current_host r :
  snd (hop ConnectHandler send_command user pwd ip_objetivo current_host)
  = Ok (Return (Some r)) ->
  exists c show_ver mac_found intf cdp_out,
    discovers ConnectHandler send_command user pwd ip_objetivo
              current_host c show_ver mac_found intf cdp_out /\
    (parse_cdp_int_detail_for_ip cdp_out = None \/
     exists info, parse_cdp_int_detail_for_ip cdp_out = Some info /\
                  ips info = []) /\
    r = {| ip := ip_objetivo; device := hostname_or show_ver current_host;
           interface := intf; mac := mac_found |}.
Proof.
  apply hop_cases; cbn [snd]; intros; try discriminate.
  match goal with D : discovers _ _ _ _ _ _ _ _ _ _ _ |- _ => rename D into Dv end.
  exists c, show_ver, mac_found, intf, cdp_out. split; [exact Dv|].
  unfold decide in *.
  destruct (parse_cdp_int_detail_for_ip cdp_out) as [info|];
    [destruct (ips info) eqn:I|]; cbn [snd] in *; try discriminate.
  - split; [right; now exists info | congruence].
  - split; [now left | congruence].
Qed.

(** When every command is answered, no pass ends by an exception. *)
Lemma hop_no_raise current_host :
  (forall c cmd, send_command c cmd <> None) ->
  snd (hop ConnectHandler send_command user pwd ip_objetivo current_host)
  <> Raise.
Proof.
  intros A.
  assert (T : forall c, mac_table_of send_command c <> None).
  { intros c. unfold mac_table_of.
    destruct (send_command c CMD_MAC) as [out|] eqn:E; [|now apply A in E].
    destruct (negb (truthy (Some out)) || contains out (lit "Invalid input"));
      [apply A | discriminate]. }
  apply hop_cases; cbn [snd]; intros; try discriminate;
    exfalso;
    first [ eapply A; eassumption | eapply T; eassumption ].
Qed.

Lemma rastrear_loop_no_raise fuel :
  (forall c cmd, send_command c cmd <> None) ->
  forall visited current_host,
    snd (rastrear_loop ConnectHandler send_command fuel user pwd ip_objetivo
                       visited current_host) <> Some Raise.
Proof.
  intros A. induction fuel as [|fuel IH]; intros visited current_host;
    [discriminate|].
  rewrite rastrear_loop_S.
  pose proof (hop_no_raise current_host A) as N.
  destruct (hop ConnectHandler send_command user pwd ip_objetivo current_host)
    as [l [[r|next_host]|]]; cbn [snd] in *; try congruence.
  specialize (IH visited next_host).
  destruct (rastrear_loop ConnectHandler send_command fuel user pwd
                          ip_objetivo visited next_host) as [l' o].
  exact IH.
Qed.

(** Where a trace that returned was when it returned. *)
Lemma rastrear_loop_returned fuel :
  forall visited start r,
    snd (rastrear_loop ConnectHandler send_command fuel user pwd ip_objetivo
                       visited start) = Some (Ok r) ->
    exists n current_host,
      reaches ConnectHandler send_command user pwd ip_objetivo
              n start current_host /\
      snd (hop ConnectHandler send_command user pwd ip_objetivo current_host)
      = Ok (Return r).
Proof.
  induction fuel as [|fuel IH]; intros visited start r; [discriminate|].
  rewrite rastrear_loop_S.
  destruct (hop ConnectHandler send_command user pwd ip_objetivo start)
    as [l [[r0|next_host]|]] eqn:H; cbn [snd]; try discriminate.
  - intros [= ->]. exists 0, start. split; [constructor | now rewrite H].
  - specialize (IH visited next_host r).
    destruct (rastrear_loop ConnectHandler send_command fuel user pwd
                            ip_objetivo visited next_host) as [l' o].
    cbn [snd] in *. intros E. destruct (IH E) as (n & h & R & Hh).
    exists (S n), h. split; [|exact Hh].
    now apply Reaches_next with (next_host := next_host) (l := l).
Qed.


End Outcomes.

Lemma lab_chain_answered c cmd : Lab.chain_answered c cmd <> None.
Proof. unfold Lab.chain_answered. destruct (Lab.chain c cmd); discriminate. Defined.



(** ** Every pass through the loop *)

Lemma pair_eq_inv {A B : Type} (a c : A) (b d : B) :
  (a, b) = (c, d) -> a = c /\ b = d.
Proof. intros [= -> ->]. now split. Qed.

Lemma combos_head user_given pass_given :
  exists rest, combos user_given pass_given = (user_given, pass_given) :: rest.
Proof.
  unfold combos, combos_of.
  rewrite add_cross_fold, fold_add_new
    by (apply list_prod_NoDup;
        [apply COMMON_USERNAMES_NoDup | apply COMMON_PASSWORDS_NoDup]).
  rewrite <- !app_assoc. eexists. reflexivity.
Qed.

Section Passes.

Variable conn : Type.
Variable ConnectHandler : netmiko_device -> option conn.
Variable send_command : conn -> str -> option str.
Variables user pwd ip_objetivo : str.

Lemma sleeps_app (a b : list (event conn)) : sleeps (a ++ b) = sleeps a ++ sleeps b.
Proof. unfold sleeps. apply flat_map_app. Qed.

Lemma protocol_app (a b f : option conn) (l1 l2 : list (event conn)) :
  protocol a l1 b -> protocol b l2 f -> protocol a (l1 ++ l2) f.
Proof.
  revert a. induction l1 as [|e l1 IH]; intros a; cbn [protocol app].
  - now intros ->.
  - destruct e; intros [E H] H2; (split; [exact E|]); now apply IH.
Qed.

(** The sessions opened and released are counted by the discipline. *)
Lemma protocol_counts (l : list (event conn)) :
  forall cur final,
    protocol cur l final ->
    opened l + (match cur with Some _ => 1 | None => 0 end)
    = closed l + (match final with Some _ => 1 | None => 0 end).
Proof.
  unfold opened, closed.
  induction l as [|e l IH]; intros cur final; cbn [protocol filter length].
  - now intros ->.
  - destruct e; intros [-> H]; apply IH in H; cbn [length] in *; lia.
Qed.

(** *** The attempts of a pass *)

Lemma try_combos_protocol host timeout cs :
  (forall c creds,
      snd (try_combos ConnectHandler host timeout cs) = Ok (Some (c, creds)) ->
      protocol None (fst (try_combos ConnectHandler host timeout cs)) (Some c))
  /\ (snd (try_combos ConnectHandler host timeout cs) = Ok None ->
      protocol None (fst (try_combos ConnectHandler host timeout cs)) None).
Proof.
  rewrite try_combos_outcome. cbn [fst snd].
  induction cs as [|cred cs [IH1 IH2]]; cbn [up_to_first first_some map app].
  - split; [discriminate | reflexivity].
  - destruct (ConnectHandler (device_for host timeout cred)) as [c0|];
      cbn [option_map map app protocol].
    + split; [|discriminate]. intros c creds [= <- _]. auto.
    + split.
      * intros c creds H. split; [reflexivity | now apply (IH1 c creds)].
      * intros H. split; [reflexivity | now apply IH2].
Qed.

Lemma try_combos_calls host timeout cs :
  sent (fst (try_combos ConnectHandler host timeout cs)) = [] /\
  sleeps (fst (try_combos ConnectHandler host timeout cs)) = [] /\
  (cs <> [] ->
   exists n, dialed_hosts (fst (try_combos ConnectHandler host timeout cs))
             = repeat host (S n)).
Proof.
  rewrite try_combos_outcome. cbn [fst].
  rewrite sent_app, sleeps_app, dialed_hosts_app.
  assert (T : forall o : option conn,
             let tail := match o with Some c => [Enable c] | None => [] end in
             sent tail = [] /\ sleeps tail = [] /\ dialed_hosts tail = [])
    by (intros [c|]; repeat split).
  destruct (T (first_some (fun cred => ConnectHandler (device_for host timeout cred)) cs))
    as (-> & -> & ->).
  rewrite !app_nil_r. clear T.
  generalize (fun cred : str * str =>
                match ConnectHandler (device_for host timeout cred) with
                | Some _ => true
                | None => false
                end) as f.
  intros f. split; [|split].
  - induction cs as [|x cs IH]; [reflexivity|]. cbn [up_to_first].
    destruct (f x); [reflexivity | exact IH].
  - induction cs as [|x cs IH]; [reflexivity|]. cbn [up_to_first].
    destruct (f x); [reflexivity | exact IH].
  - intros N.
    assert (G : forall xs : list (str * str),
               dialed_hosts (map (fun cred => Dial (conn := conn)
                                                (device_for host timeout cred)) xs)
               = repeat host (length xs)).
    { induction xs as [|x xs IH]; [reflexivity|].
      cbn [map dialed_hosts flat_map app length repeat].
      f_equal. exact IH. }
    rewrite G.
    destruct cs as [|x cs]; [congruence|]. cbn [up_to_first].
    destruct (f x); cbn [length]; eexists; reflexivity.
Qed.

Lemma try_connect_protocol host user_given pass_given timeout :
  (forall c creds,
      snd (try_connect ConnectHandler host user_given pass_given timeout)
      = Ok (Some (c, creds)) ->
      protocol None
        (fst (try_connect ConnectHandler host user_given pass_given timeout))
        (Some c))
  /\ (snd (try_connect ConnectHandler host user_given pass_given timeout)
      = Ok None ->
      protocol None
        (fst (try_connect ConnectHandler host user_given pass_given timeout))
        None).
Proof.
  exact (try_combos_protocol host timeout (combos user_given pass_given)).
Qed.

Lemma try_connect_calls host user_given pass_given timeout :
  sent (fst (try_connect ConnectHandler host user_given pass_given timeout))
  = [] /\
  sleeps (fst (try_connect ConnectHandler host user_given pass_given timeout))
  = [] /\
  exists n,
    dialed_hosts
      (fst (try_connect ConnectHandler host user_given pass_given timeout))
    = repeat host (S n).
Proof.
  destruct (try_combos_calls host timeout (combos user_given pass_given))
    as (A & B & C).
  assert (N : combos user_given pass_given <> []).
  { destruct (combos_head user_given pass_given) as [rest ->]. discriminate. }
  exact (conj A (conj B (C N))).
Qed.

(** *** The calls after the attempts *)

Lemma mac_table_calls_protocol c :
  protocol (Some c) (mac_table_calls send_command c) (Some c).
Proof.
  unfold mac_table_calls.
  destruct (send_command c CMD_MAC) as [out|];
    [destruct (negb (truthy (Some out)) || contains out (lit "Invalid input"))|];
    cbn [protocol]; auto.
Qed.

Lemma mac_table_calls_only c :
  Forall walk_command (sent (mac_table_calls send_command c)) /\
  sleeps (mac_table_calls send_command c) = [] /\
  dialed_hosts (mac_table_calls send_command c) = [].
Proof.
  assert (M : walk_command CMD_MAC) by (unfold walk_command; auto).
  assert (N : walk_command CMD_MAC_ALT) by (unfold walk_command; auto).
  unfold mac_table_calls.
  destruct (send_command c CMD_MAC) as [out|];
    [destruct (negb (truthy (Some out)) || contains out (lit "Invalid input"))|];
    (split; [|split; reflexivity]);
    cbn [sent flat_map app]; repeat constructor; assumption.
Qed.

Lemma decide_protocol found vecino_info :
  protocol (conn := conn) None (fst (decide found vecino_info)) None.
Proof.
  unfold decide. destruct vecino_info as [info|]; [destruct (ips info)|];
    cbn [fst protocol]; auto.
Qed.

Lemma decide_calls found vecino_info :
  sent (fst (decide (conn := conn) found vecino_info)) = [] /\
  dialed_hosts (fst (decide (conn := conn) found vecino_info)) = [] /\
  sleeps (fst (decide (conn := conn) found vecino_info))
  = match snd (decide (conn := conn) found vecino_info) with
    | Next _ => [1]
    | Return _ => []
    end.
Proof.
  unfold decide. destruct vecino_info as [info|]; [destruct (ips info)|];
    repeat split.
Qed.

(** The addresses of a neighbor are runs of digits and dots. *)
Lemma parse_cdp_ips_digits cdp_output info :
  parse_cdp_int_detail_for_ip cdp_output = Some info ->
  Forall dotted_digits (ips info).
Proof.
  unfold parse_cdp_int_detail_for_ip.
  destruct (negb (truthy (Some cdp_output))
            || negb (contains cdp_output (lit "Device ID"))); [discriminate|].
  rewrite fold_cdp_line. cbn [app or_keep].
  destruct (last_opt (filter_map device_id_of_line
                        (map strip (splitlines cdp_output))))
    as [[|c d]|] eqn:D; cbn [or_keep]; try discriminate.
  intros [= <-]. cbn [ips].
  apply filter_map_all. intros x y. apply ip_of_line_digits.
Qed.

Lemma decide_next found vecino_info next_host :
  snd (decide (conn := conn) found vecino_info) = Next next_host ->
  exists info, vecino_info = Some info /\ hd_error (ips info) = Some next_host.
Proof.
  unfold decide. destruct vecino_info as [info|]; [|discriminate].
  destruct (ips info) as [|h t] eqn:E; [discriminate|].
  intros [= <-]. exists info. now rewrite E.
Qed.

(** *** A pass *)

Lemma hop_protocol current_host l r :
  hop ConnectHandler send_command user pwd ip_objetivo current_host = (l, r) ->
  sessions_in_order l (hop_raised r).
Proof.
  destruct (try_connect_protocol current_host user pwd 7) as [T1 T0].
  pose proof mac_table_calls_protocol as M.
  pose proof decide_protocol as D.
  revert l r.
  apply (hop_cases conn ConnectHandler send_command user pwd ip_objetivo
           current_host
           (fun p => forall l r, p = (l, r) ->
                                 sessions_in_order l (hop_raised r))).
  - intros H l r E. apply pair_eq_inv in E as [<- <-].
    unfold sessions_in_order, hop_raised. now apply T0.
  - intros c creds H _ l r E. apply pair_eq_inv in E as [<- <-].
    unfold sessions_in_order, hop_raised. exists c.
    apply protocol_app with (b := Some c); [now apply (T1 c creds)|].
    cbn [protocol]. auto.
  - intros c creds sv H _ _ l r E. apply pair_eq_inv in E as [<- <-].
    unfold sessions_in_order, hop_raised. exists c.
    apply protocol_app with (b := Some c); [now apply (T1 c creds)|].
    cbn [protocol]. auto.
  - intros c creds sv arp H _ _ _ l r E. apply pair_eq_inv in E as [<- <-].
    unfold sessions_in_order, hop_raised.
    apply protocol_app with (b := Some c); [now apply (T1 c creds)|].
    cbn [protocol]. auto.
  - intros c creds sv arp mac H _ _ _ _ l r E.
    apply pair_eq_inv in E as [<- <-].
    unfold sessions_in_order, hop_raised. exists c.
    apply protocol_app with (b := Some c); [now apply (T1 c creds)|].
    cbn [app protocol]. repeat (split; [reflexivity|]). apply M.
  - intros c creds sv arp mac mt H _ _ _ _ _ l r E.
    apply pair_eq_inv in E as [<- <-].
    unfold sessions_in_order, hop_raised.
    apply protocol_app with (b := Some c); [now apply (T1 c creds)|].
    cbn [app protocol]. repeat (split; [reflexivity|]).
    apply protocol_app with (b := Some c); [apply M|].
    cbn [protocol]. auto.
  - intros c creds sv arp mac mt intf H _ _ _ _ _ _ l r E.
    apply pair_eq_inv in E as [<- <-].
    unfold sessions_in_order, hop_raised. exists c.
    apply protocol_app with (b := Some c); [now apply (T1 c creds)|].
    cbn [app protocol]. repeat (split; [reflexivity|]).
    apply protocol_app with (b := Some c); [apply M|].
    cbn [protocol]. auto.
  - intros c sv mac intf cdp [creds arp mt H _ _ _ _ _ _] found d l r E.
    apply pair_eq_inv in E as [<- <-].
    unfold sessions_in_order, hop_raised.
    apply protocol_app with (b := Some c); [now apply (T1 c creds)|].
    cbn [app protocol]. repeat (split; [reflexivity|]).
    apply protocol_app with (b := Some c); [apply M|].
    cbn [app protocol]. repeat (split; [reflexivity|]). apply D.
Qed.

(** The commands of a pass, the hosts it dials, its pause, and where it
    goes next. *)
Lemma hop_calls current_host l r :
  hop ConnectHandler send_command user pwd ip_objetivo current_host = (l, r) ->
  Forall walk_command (sent l) /\
  (exists n, dialed_hosts l = repeat current_host (S n)) /\
  sleeps l = (match r with Ok (Next _) => [1] | _ => [] end) /\
  (forall next_host, r = Ok (Next next_host) -> dotted_digits next_host).
Proof.
  destruct (try_connect_calls current_host user pwd 7) as (S0 & P0 & n & D0).
  assert (V : walk_command CMD_VER) by (unfold walk_command; auto).
  assert (A : walk_command CMD_ARP) by (unfold walk_command; auto).
  assert (I : forall mt mac intf,
             find_interface_by_mac mt mac = Some intf ->
             walk_command (CMD_CDP_INT_FMT intf)).
  { intros mt mac intf H. apply find_interface_in_lines_token in H as [T _].
    unfold walk_command. eauto 7. }
  pose proof mac_table_calls_only as M.
  revert l r.
  apply (hop_cases conn ConnectHandler send_command user pwd ip_objetivo
           current_host
           (fun p => forall l r, p = (l, r) ->
              Forall walk_command (sent l) /\
              (exists n, dialed_hosts l = repeat current_host (S n)) /\
              sleeps l = (match r with Ok (Next _) => [1] | _ => [] end) /\
              (forall next_host, r = Ok (Next next_host) ->
                                 dotted_digits next_host))).
  - intros H l r E. apply pair_eq_inv in E as [<- <-].
    rewrite S0, P0, D0. split; [constructor | split; [now exists n | split; [reflexivity | discriminate]]].
  - intros c creds H _ l r E. apply pair_eq_inv in E as [<- <-].
    rewrite sent_app, sleeps_app, dialed_hosts_app, S0, P0, D0.
    cbn [app sent sleeps dialed_hosts flat_map]. rewrite app_nil_r.
    split; [repeat constructor; assumption | split; [now exists n | split; [reflexivity | discriminate]]].
  - intros c creds sv H _ _ l r E. apply pair_eq_inv in E as [<- <-].
    rewrite sent_app, sleeps_app, dialed_hosts_app, S0, P0, D0.
    cbn [app sent sleeps dialed_hosts flat_map]. rewrite app_nil_r.
    split; [repeat constructor; assumption | split; [now exists n | split; [reflexivity | discriminate]]].
  - intros c creds sv arp H _ _ _ l r E. apply pair_eq_inv in E as [<- <-].
    rewrite sent_app, sleeps_app, dialed_hosts_app, S0, P0, D0.
    cbn [app sent sleeps dialed_hosts flat_map]. rewrite app_nil_r.
    split; [repeat constructor; assumption | split; [now exists n | split; [reflexivity | discriminate]]].
  - intros c creds sv arp mac H _ _ _ _ l r E.
    apply pair_eq_inv in E as [<- <-].
    destruct (M c) as (M1 & M2 & M3).
    rewrite !sent_app, !sleeps_app, !dialed_hosts_app, S0, P0, D0, M2, M3.
    cbn [app sent sleeps dialed_hosts flat_map]. rewrite app_nil_r.
    split; [|split; [now exists n | split; [reflexivity | discriminate]]].
    apply Forall_cons; [exact V|]. apply Forall_cons; [exact A | exact M1].
  - intros c creds sv arp mac mt H _ _ _ _ _ l r E.
    apply pair_eq_inv in E as [<- <-].
    destruct (M c) as (M1 & M2 & M3).
    rewrite !sent_app, !sleeps_app, !dialed_hosts_app, S0, P0, D0, M2, M3.
    cbn [app sent sleeps dialed_hosts flat_map]. rewrite !app_nil_r.
    split; [|split; [now exists n | split; [reflexivity | discriminate]]].
    apply Forall_cons; [exact V|]. apply Forall_cons; [exact A | exact M1].
  - intros c creds sv arp mac mt intf H _ _ _ _ Hi _ l r E.
    apply pair_eq_inv in E as [<- <-].
    destruct (M c) as (M1 & M2 & M3).
    rewrite !sent_app, !sleeps_app, !dialed_hosts_app, S0, P0, D0, M2, M3.
    cbn [app sent sleeps dialed_hosts flat_map]. rewrite !app_nil_r.
    split; [|split; [now exists n | split; [reflexivity | discriminate]]].
    apply Forall_cons; [exact V|]. apply Forall_cons; [exact A|].
    apply Forall_app. split; [exact M1|].
    apply Forall_cons; [exact (I _ _ _ Hi) | constructor].
  - intros c sv mac intf cdp [creds arp mt H _ _ _ _ Hi _] found d l r E.
    apply pair_eq_inv in E as [<- <-].
    destruct (M c) as (M1 & M2 & M3).
    destruct (decide_calls found (parse_cdp_int_detail_for_ip cdp))
      as (D1 & D2 & D3).
    fold d in D1, D2, D3.
    rewrite !sent_app, !sleeps_app, !dialed_hosts_app, S0, P0, D0, M2, M3,
      D1, D2, D3.
    cbn [app sent sleeps dialed_hosts flat_map]. rewrite !app_nil_r.
    split; [|split; [now exists n | split]].
    + apply Forall_cons; [exact V|]. apply Forall_cons; [exact A|].
      apply Forall_app. split; [exact M1|].
      apply Forall_cons; [exact (I _ _ _ Hi) | constructor].
    + destruct (snd d); reflexivity.
    + intros next_host [= N]. apply decide_next in N as (info & P & Hh).
      apply parse_cdp_ips_digits in P.
      destruct (ips info) as [|h t]; [discriminate|].
      injection Hh as ->. now inversion P.
Qed.

End Passes.

(** ** Every trace *)

Section Traces.

Variable conn : Type.
Variable ConnectHandler : netmiko_device -> option conn.
Variable send_command : conn -> str -> option str.
Variables user pwd ip_objetivo : str.

Lemma rastrear_loop_calls fuel :
  forall visited current_host l o,
    rastrear_loop ConnectHandler send_command fuel user pwd ip_objetivo
                  visited current_host = (l, o) ->
    sessions_in_order l (trace_raised o) /\
    Forall walk_command (sent l) /\
    Forall (fun h => h = current_host \/ dotted_digits h) (dialed_hosts l).
Proof.
  induction fuel as [|fuel IH]; intros visited current_host l o H.
  - apply pair_eq_inv in H as [<- <-].
    split; [reflexivity | split; constructor].
  - rewrite rastrear_loop_S in H.
    destruct (hop ConnectHandler send_command user pwd ip_objetivo current_host)
      as [lh rh] eqn:Eh.
    pose proof (hop_protocol _ _ _ _ _ _ _ _ _ Eh) as P.
    destruct (hop_calls _ _ _ _ _ _ _ _ _ Eh) as (C & (n & D) & _ & N).
    assert (F : Forall (fun h => h = current_host \/ dotted_digits h)
                       (dialed_hosts lh)).
    { rewrite D. apply Forall_forall. intros h I.
      apply repeat_spec in I. now left. }
    destruct rh as [[r|next_host]|].
    + apply pair_eq_inv in H as [<- <-]. auto.
    + destruct (rastrear_loop ConnectHandler send_command fuel user pwd
                              ip_objetivo visited next_host)
        as [l' o'] eqn:El.
      apply pair_eq_inv in H as [<- <-].
      destruct (IH _ _ _ _ El) as (P' & C' & F').
      split; [|split].
      * unfold sessions_in_order, hop_raised in *.
        destruct (trace_raised o').
        -- destruct P' as [c P']. exists c. now apply protocol_app with (b := None).
        -- now apply protocol_app with (b := None).
      * rewrite sent_app. apply Forall_app. now split.
      * rewrite dialed_hosts_app. apply Forall_app. split; [exact F|].
        specialize (N next_host eq_refl).
        revert F'. apply Forall_impl. intros h [->|Hh]; now right.
    + apply pair_eq_inv in H as [<- <-]. auto.
Qed.

Lemma rastrear_loop_first fuel visited current_host :
  hd_error (dialed_hosts
              (fst (rastrear_loop ConnectHandler send_command (S fuel) user pwd
                                  ip_objetivo visited current_host)))
  = Some current_host.
Proof.
  rewrite rastrear_loop_S.
  destruct (hop ConnectHandler send_command user pwd ip_objetivo current_host)
    as [lh rh] eqn:Eh.
  destruct (hop_calls _ _ _ _ _ _ _ _ _ Eh) as (_ & (n & D) & _).
  destruct rh as [[r|next_host]|]; cbn [fst]; try (now rewrite D).
  destruct (rastrear_loop ConnectHandler send_command fuel user pwd
                          ip_objetivo visited next_host) as [l' o'].
  cbn [fst]. rewrite dialed_hosts_app, D. reflexivity.
Qed.

(** The walk that reaches a host paused once, one second, at each transit
    hop. *)
Lemma reaches_calls n start h :
  reaches ConnectHandler send_command user pwd ip_objetivo n start h ->
  (h = start \/ dotted_digits h) /\
  forall fuel visited,
    exists pre,
      fst (rastrear_loop ConnectHandler send_command (n + fuel) user pwd
                         ip_objetivo visited start)
      = pre ++ fst (rastrear_loop ConnectHandler send_command fuel user pwd
                                  ip_objetivo visited h) /\
      sleeps pre = repeat 1 n.
Proof.
  induction 1 as [h|n h next_host h' l Hh _ [IH1 IH2]].
  - split; [now left|]. intros fuel visited. exists []. now split.
  - destruct (hop_calls _ _ _ _ _ _ _ _ _ Hh) as (_ & _ & Sl & N).
    specialize (N next_host eq_refl).
    split; [right; destruct IH1 as [->|D]; assumption|].
    intros fuel visited. cbn [Nat.add].
    rewrite (rastrear_loop_next _ _ _ _ _ _ _ _ _ _ _ Hh).
    destruct (IH2 fuel visited) as (pre & E & Sp).
    destruct (rastrear_loop ConnectHandler send_command (n + fuel) user pwd
                            ip_objetivo visited next_host) as [l' o'].
    cbn [fst] in *. exists (l ++ pre). rewrite E, app_assoc.
    split; [reflexivity|]. rewrite sleeps_app, Sl, Sp. reflexivity.
Qed.

(** X12: the walk keeps one session at a time.  In every trace, ended or
    still running, the calls follow the discipline of the sessions: a host
    is dialed and the walk pauses only when no session is open, a command
    goes to the session that is open, and the session released is the one
    that is open.  Every session is released, unless an exception ended the
    trace: then one session is left open. *)
Theorem trace_sessions_in_order (fuel : nat) (start_switch : str) :
  sessions_in_order
    (fst (rastrear_ip_hasta_host ConnectHandler send_command fuel
            start_switch user pwd ip_objetivo))
    (trace_raised
       (snd (rastrear_ip_hasta_host ConnectHandler send_command fuel
               start_switch user pwd ip_objetivo))) /\
  opened (fst (rastrear_ip_hasta_host ConnectHandler send_command fuel
                 start_switch user pwd ip_objetivo))
  = closed (fst (rastrear_ip_hasta_host ConnectHandler send_command fuel
                   start_switch user pwd ip_objetivo))
    + (if trace_raised
            (snd (rastrear_ip_hasta_host ConnectHandler send_command fuel
                    start_switch user pwd ip_objetivo))
       then 1 else 0).
Proof.
  unfold rastrear_ip_hasta_host.
  destruct (rastrear_loop ConnectHandler send_command fuel user pwd
                          ip_objetivo [] start_switch) as [l o] eqn:E.
  destruct (rastrear_loop_calls _ _ _ _ _ E) as (P & _).
  cbn [fst snd]. split; [exact P|].
  unfold sessions_in_order in P. destruct (trace_raised o).
  - destruct P as [c P]. apply protocol_counts in P. lia.
  - apply protocol_counts in P. lia.
Qed.

(** X13: the walk only reads.  Every command sent in a trace is one of the
    four fixed [show] commands or the neighbor detail of an interface, and
    the interface is a field of the MAC table: not empty, no whitespace. *)
Theorem trace_commands (fuel : nat) (start_switch : str) :
  Forall walk_command
    (sent (fst (rastrear_ip_hasta_host ConnectHandler send_command fuel
                  start_switch user pwd ip_objetivo))).
Proof.
  unfold rastrear_ip_hasta_host.
  destruct (rastrear_loop ConnectHandler send_command fuel user pwd
                          ip_objetivo [] start_switch) as [l o] eqn:E.
  now destruct (rastrear_loop_calls _ _ _ _ _ E) as (_ & C & _).
Qed.

(** X14: the hosts of a trace.  The first host dialed is the start switch;
    every other host dialed is an address read in a neighbor detail, a run
    of digits and dots. *)
Theorem trace_dialed_hosts (fuel : nat) (start_switch : str) :
  hd_error
    (dialed_hosts (fst (rastrear_ip_hasta_host ConnectHandler send_command
                          (S fuel) start_switch user pwd ip_objetivo)))
  = Some start_switch /\
  Forall (fun h => h = start_switch \/ dotted_digits h)
    (dialed_hosts (fst (rastrear_ip_hasta_host ConnectHandler send_command
                          fuel start_switch user pwd ip_objetivo))).
Proof.
  unfold rastrear_ip_hasta_host. split; [apply rastrear_loop_first|].
  destruct (rastrear_loop ConnectHandler send_command fuel user pwd
                          ip_objetivo [] start_switch) as [l o] eqn:E.
  now destruct (rastrear_loop_calls _ _ _ _ _ E) as (_ & _ & F).
Qed.

(** What a trace returns. *)
Lemma rastrear_result fuel start_switch r :
  snd (rastrear_ip_hasta_host ConnectHandler send_command fuel
         start_switch user pwd ip_objetivo) = Some (Ok (Some r)) ->
  ip r = ip_objetivo /\
  is_canonical_mac (mac r) = true /\
  is_token (interface r) = true /\
  (is_token (device r) = true \/ device r = start_switch \/
   dotted_digits (device r)).
Proof.
  unfold rastrear_ip_hasta_host. intros E.
  apply rastrear_loop_returned in E as (n & h & R & H).
  apply hop_some_inv in H as (c & sv & m & intf & cdp & D & _ & ->).
  destruct D as [creds arp mt _ _ _ Hm _ Hi _].
  cbn [ip mac interface device].
  split; [reflexivity|].
  split; [exact (find_mac_in_arp_canonical _ _ _ Hm)|].
  split; [exact (proj1 (find_interface_in_lines_token _ _ _ Hi))|].
  unfold hostname_or.
  destruct (get_hostname_from_show_ver sv) as [[|a t]|] eqn:G.
  - right. exact (proj1 (reaches_calls _ _ _ R)).
  - left. exact (hostname_in_lines_token _ _ G).
  - right. exact (proj1 (reaches_calls _ _ _ R)).
Qed.

(** X15: the result of a trace.  Its address is the target as given, its
    MAC address is canonical, its interface has no whitespace and is not
    empty, and its device is a hostname with no whitespace, or the host
    where the walk ended: the start switch or a run of digits and dots. *)
Theorem trace_result_well_formed (fuel : nat) (start_switch : str)
    (r : TraceResult) :
  snd (rastrear_ip_hasta_host ConnectHandler send_command fuel
         start_switch user pwd ip_objetivo) = Some (Ok (Some r)) ->
  ip r = ip_objetivo /\
  is_canonical_mac (mac r) = true /\
  is_token (interface r) = true /\
  (is_token (device r) = true \/ device r = start_switch \/
   dotted_digits (device r)).
Proof. apply rastrear_result. Qed.


(** X17: the walk pauses one second after every transit hop and at no other
    time: the trace that ends at the host reached after [n] transit hops
    has paused [n] times. *)
Theorem trace_pauses (n fuel : nat) (start_switch current_host : str) :
  reaches ConnectHandler send_command user pwd ip_objetivo
          n start_switch current_host ->
  (forall next_host,
      snd (hop ConnectHandler send_command user pwd ip_objetivo current_host)
      <> Ok (Next next_host)) ->
  sleeps (fst (rastrear_ip_hasta_host ConnectHandler send_command
                 (n + S fuel) start_switch user pwd ip_objetivo))
  = repeat 1 n.
Proof.
  unfold rastrear_ip_hasta_host. intros R F.
  destruct (proj2 (reaches_calls _ _ _ R) (S fuel) []) as (pre & -> & Sp).
  rewrite sleeps_app, Sp, rastrear_loop_S.
  destruct (hop ConnectHandler send_command user pwd ip_objetivo current_host)
    as [lh rh] eqn:Eh.
  destruct (hop_calls _ _ _ _ _ _ _ _ _ Eh) as (_ & _ & Sl & _).
  destruct rh as [[r|next_host]|]; cbn [fst snd] in *;
    [now rewrite Sl, app_nil_r | | now rewrite Sl, app_nil_r].
  now destruct (F next_host).
Qed.

End Traces.

(** ** main *)

Section MainReport.

Variable conn : Type.
Variable ConnectHandler : netmiko_device -> option conn.
Variable send_command : conn -> str -> option str.

Lemma printed_app (a b : list (console + event conn)) :
  printed (a ++ b) = printed a ++ printed b.
Proof. unfold printed. apply flat_map_app. Qed.

Lemma network_app (a b : list (console + event conn)) :
  network (a ++ b) = network a ++ network b.
Proof. unfold network. apply flat_map_app. Qed.

Lemma printed_network (l : list (event conn)) :
  printed (map inr l) = [] /\ network (map inr l) = l.
Proof.
  induction l as [|e l [IH1 IH2]]; [now split|].
  cbn [map printed network flat_map app] in *. split; [exact IH1|].
  f_equal. exact IH2.
Qed.

Lemma printed_lines (lines : list str) :
  printed (conn := conn) (map (fun line => inl (PrintLine line)) lines) = lines /\
  network (conn := conn) (map (fun line => inl (PrintLine line)) lines) = [].
Proof.
  induction lines as [|x lines [IH1 IH2]]; [now split|].
  cbn [map printed network flat_map app] in *. split; [|exact IH2].
  f_equal. exact IH1.
Qed.

(** X18: what [main] shows.  With four lines typed, the calls of the network
    are those of the trace from the first line to the fourth, each
    stripped, with the second and the third as credentials.  Nothing is
    printed while the trace runs, nor when an exception ends it;
    [NOT_FOUND] alone is printed when the trace gives none; the report is
    printed when it gives a result, and then the address shown is the
    fourth line, stripped, and the MAC address shown is canonical. *)
Theorem main_report (fuel : nat) (t1 t2 t3 t4 : str) (more : list str) :
  let trace := rastrear_ip_hasta_host ConnectHandler send_command fuel
                 (strip t1) (strip t2) (strip t3) (strip t4) in
  let run := main ConnectHandler send_command fuel
               (t1 :: t2 :: t3 :: t4 :: more) in
  network (fst run) = fst trace /\
  match snd trace with
  | None => snd run = None /\ printed (fst run) = []
  | Some Raise => snd run = Some Raise /\ printed (fst run) = []
  | Some (Ok None) => snd run = Some (Ok tt) /\ printed (fst run) = [NOT_FOUND]
  | Some (Ok (Some data)) =>
      snd run = Some (Ok tt) /\ printed (fst run) = report data /\
      ip data = strip t4 /\ is_canonical_mac (mac data) = true
  end.
Proof.
  cbv zeta. unfold main.
  pose proof (rastrear_result conn ConnectHandler send_command (strip t2)
                (strip t3) (strip t4) fuel (strip t1))
    as W.
  destruct (rastrear_ip_hasta_host ConnectHandler send_command fuel
              (strip t1) (strip t2) (strip t3) (strip t4)) as [l o].
  cbn [fst snd] in *.
  destruct (printed_network l) as [P N].
  assert (Q : printed (conn := conn) (map inl prompts) = [] /\
              network (conn := conn) (map inl prompts) = []) by (now split).
  destruct Q as [Q1 Q2].
  destruct o as [[[data|]|]|]; cbn [fst snd];
    rewrite ?printed_app, ?network_app, P, N, Q1, Q2.
  - destruct (printed_lines (report data)) as [-> ->].
    destruct (W data eq_refl) as (I & C & _).
    now rewrite app_nil_r.
  - now rewrite app_nil_r.
  - now split.
  - now split.
Qed.

(** X19: [main] strips what is typed: whitespace around a line typed at a
    prompt, the password included, changes nothing. *)
Theorem main_ignores_padding (fuel : nat) (t1 t2 t3 t4 : str)
    (l1 r1 l2 r2 l3 r3 l4 r4 : str) :
  forallb isspace (l1 ++ r1 ++ l2 ++ r2 ++ l3 ++ r3 ++ l4 ++ r4) = true ->
  main ConnectHandler send_command fuel
    [l1 ++ t1 ++ r1; l2 ++ t2 ++ r2; l3 ++ t3 ++ r3; l4 ++ t4 ++ r4]
  = main ConnectHandler send_command fuel [t1; t2; t3; t4].
Proof.
  rewrite !forallb_app. intros H.
  repeat (apply andb_prop in H as [? H]).
  unfold main. now rewrite !strip_padded by assumption.
Qed.


End MainReport.

(** ** The small network, walked *)

Lemma trace_result_well_formed_witness :
  Lab.target = Lab.target /\
  is_canonical_mac (lit "aabb.ccdd.eeff") = true /\
  is_token (lit "Gi1/0/1") = true /\
  (is_token Lab.sw2 = true \/ Lab.sw2 = Lab.sw1 \/ dotted_digits Lab.sw2).
Proof.
  apply (trace_result_well_formed _ Lab.connect Lab.chain (lit "admin")
           (lit "cisco123") Lab.target 2 Lab.sw1
           {| ip := Lab.target; device := Lab.sw2;
              interface := lit "Gi1/0/1"; mac := lit "aabb.ccdd.eeff" |}).
  vm_compute. reflexivity.
Defined.


Lemma trace_pauses_witness :
  sleeps (fst (rastrear_ip_hasta_host Lab.connect Lab.chain (1 + 2) Lab.sw1
                 (lit "admin") (lit "cisco123") Lab.target))
  = repeat 1 1.
Proof.
  apply (trace_pauses _ Lab.connect Lab.chain (lit "admin") (lit "cisco123")
           Lab.target 1 1 Lab.sw1 Lab.sw2).
  - apply lab_chain_reaches_sw2. vm_compute. reflexivity.
  - intros next_host. vm_compute. discriminate.
Defined.

Lemma main_ignores_padding_witness :
  main Lab.connect Lab.chain 2
    [lit " " ++ Lab.sw1 ++ []; [] ++ lit "admin" ++ lit " ";
     lit " " ++ lit "cisco123" ++ lit " "; [] ++ Lab.target ++ Lab.nl]
  = main Lab.connect Lab.chain 2
      [Lab.sw1; lit "admin"; lit "cisco123"; Lab.target].
Proof.
  apply (main_ignores_padding _ Lab.connect Lab.chain 2 Lab.sw1 (lit "admin")
           (lit "cisco123") Lab.target
           (lit " ") [] [] (lit " ") (lit " ") (lit " ") [] Lab.nl).
  vm_compute. reflexivity.
Defined.


(** On the small network [main] shows the switch where the walk ended, by
    its address: that switch shows no hostname. *)
Example main_chain :
  printed (fst (main Lab.connect Lab.chain 2
                  [Lab.sw1; lit "admin"; lit "cisco123"; Lab.target]))
  = ["010"%char :: lit "IP: 10.0.0.5"; lit "Dispositivo: 10.0.0.2";
     lit "Interfaz: Gi1/0/1"; lit "MAC: aabb.ccdd.eeff" ++ ["010"%char]].
Proof. vm_compute. reflexivity. Qed.

(** ** The given pair *)

Section GivenPair.

Variable conn : Type.
Variable ConnectHandler : netmiko_device -> option conn.

(** X21: the pair that the operator gave is tried first, and a device that
    accepts it sees no other pair: one attempt is made, with the given
    pair, and its session is returned. *)
Theorem try_connect_given_first (host user_given pass_given : str)
    (timeout : nat) (c : conn) :
  ConnectHandler (device_for host timeout (user_given, pass_given)) = Some c ->
  try_connect ConnectHandler host user_given pass_given timeout
  = ([Dial (device_for host timeout (user_given, pass_given)); Enable c],
     Ok (Some (c, (user_given, pass_given)))).
Proof.
  intros H. unfold try_connect.
  destruct (combos_head user_given pass_given) as [rest ->].
  rewrite try_combos_outcome. cbn [up_to_first first_some].
  rewrite H. reflexivity.
Qed.

End GivenPair.

Lemma try_connect_given_first_witness :
  try_connect Lab.connect Lab.sw1 (lit "admin") (lit "cisco123") 7
  = ([Dial (device_for Lab.sw1 7 (lit "admin", lit "cisco123"));
      Enable Lab.sw1],
     Ok (Some (Lab.sw1, (lit "admin", lit "cisco123")))).
Proof.
  apply (try_connect_given_first _ Lab.connect Lab.sw1 (lit "admin")
           (lit "cisco123") 7 Lab.sw1).
  vm_compute. reflexivity.
Defined.
